(** * lidder: a shallow embedding of [lidder.go] and its specification

    [lidder] scans a source tree line by line against a list of regular
    expressions ("lidded" patterns) and reconciles, per rule, the files where
    a pattern was seen with the files where it is allowed.

    The embedding follows [lidder.go] function by function.  Go strings are
    byte strings ([string]); a [map[string]bool] is a [gmap string bool], read
    with Go's zero-value default; the rules behind [defs.Rules] are mutated in
    place in Go and are threaded explicitly here; a function returning
    [error] returns the state reached together with an [option error]; a nil
    pointer in [defs.Rules] is [None], and the call that dereferences it
    [Panics]. *)

From Stdlib Require Import Ascii Bool Arith Lia.
From stdpp Require Import base option list strings gmap.

(** ** The libraries the program is linked against

    [regexp], [yaml.v2], [path/filepath] and the [error] values of [os] and
    [io] are not part of the repository: they are an interface here. *)

(** What [yaml.Unmarshal] fills in: the exported fields of [rule] ... *)
Record yamlRule := YamlRule {
  yPattern : string;
  yExpected : list string
}.

(** ... and the exported fields of [defs].  [Rules] is a slice of pointers:
    a null item of the list in the document is a nil pointer, [None]. *)
Record yamlDefs := YamlDefs {
  yInclude : list string;
  yExclude : list string;
  yRules : list (option yamlRule)
}.

(** A call returns, or it panics on a nil pointer. *)
Inductive call (A : Type) :=
| Returns (a : A)
| Panics.

Arguments Returns {A} a.
Arguments Panics {A}.

Class GoLibs := {
  error : Type;
  error_eq_dec :: EqDecision error;
  (** [err.Error()] *)
  error_Error : error → string;
  (** [io.EOF] *)
  io_EOF : error;
  (** a compiled [regexp.Regexp] *)
  Regexp : Type;
  (** [regexp.Compile] *)
  regexp_Compile : string → Regexp + error;
  (** [Regexp.Match], on the bytes of a string *)
  regexp_Match : Regexp → string → bool;
  (** [yaml.Unmarshal] into a zero [defs] *)
  yaml_Unmarshal : string → yamlDefs + error;
  (** [filepath.Join] *)
  filepath_Join : string → string → string
}.

(** Go's [m[k]] on a [map[string]bool]: [false] when the key is absent. *)
Definition index (m : gmap string bool) (k : string) : bool :=
  default false (m !! k).

(** The keys a [for k := range m] visits.  Go leaves the order unspecified;
    the order of [map_to_list] stands for one of them. *)
Definition range (m : gmap string bool) : list string :=
  (map_to_list m).*1.

(** The set of paths a [map[string]bool] stands for: the keys [k] with
    [m[k]] true. *)
Definition paths (m : gmap string bool) : gset string :=
  dom (filter (λ kv, kv.2 = true) m).

Definition newline : ascii := "010"%char.

Section Lidder.
Context `{GoLibs}.

(** ** Data model ([type defs], [type rule]) *)

Record rule := Rule {
  Pattern : string;
  Expected : list string;
  pattern : Regexp;
  expectedFilenames : gmap string bool;
  actualFilenames : gmap string bool
}.

Record defs := Defs {
  Include : list string;
  Exclude : list string;
  Rules : list rule;
  include : list Regexp;
  exclude : list Regexp
}.

Definition set_expectedFilenames (r : rule) (m : gmap string bool) : rule :=
  Rule (Pattern r) (Expected r) (pattern r) m (actualFilenames r).

Definition set_actualFilenames (r : rule) (m : gmap string bool) : rule :=
  Rule (Pattern r) (Expected r) (pattern r) (expectedFilenames r) m.

Definition set_Rules (d : defs) (rs : list rule) : defs :=
  Defs (Include d) (Exclude d) rs (include d) (exclude d).

(** ** [parse] *)

(** The two loops [for i, expr := range defs.Include/Exclude]: compile in
    order, return the first error. *)
Fixpoint compilePatterns (exprs : list string) : list Regexp + error :=
  match exprs with
  | [] => inl []
  | expr :: rest =>
      match regexp_Compile expr with
      | inr err => inr err
      | inl pattern =>
          match compilePatterns rest with
          | inr err => inr err
          | inl patterns => inl (pattern :: patterns)
          end
      end
  end.

(** The loop [for _, rule := range defs.Rules] that sets [rule.pattern];
    [rule.Pattern] on a nil [rule] panics. *)
Fixpoint compileRules (rules : list (option yamlRule))
  : call (list (yamlRule * Regexp) + error) :=
  match rules with
  | [] => Returns (inl [])
  | None :: _ => Panics
  | Some rule :: rest =>
      match regexp_Compile (yPattern rule) with
      | inr err => Returns (inr err)
      | inl pattern =>
          match compileRules rest with
          | Panics => Panics
          | Returns (inr err) => Returns (inr err)
          | Returns (inl compiled) => Returns (inl ((rule, pattern) :: compiled))
          end
      end
  end.

(** [for _, path := range rule.Expected { rule.expectedFilenames[path] = true }] *)
Fixpoint expectedMap (m : gmap string bool) (expected : list string) : gmap string bool :=
  match expected with
  | [] => m
  | path :: rest => expectedMap (<[path := true]> m) rest
  end.

(** The loop that initialises the two maps of every rule. *)
Definition initRule (c : yamlRule * Regexp) : rule :=
  Rule (yPattern c.1) (yExpected c.1) c.2 (expectedMap ∅ (yExpected c.1)) ∅.

(** [parse] returns a pointer and an error, [nil, err] or [&defs, nil],
    unless it panics on a nil rule. *)
Definition parse (input : string) : call (option defs * option error) :=
  match yaml_Unmarshal input with
  | inr err => Returns (None, Some err)
  | inl y =>
      match compilePatterns (yInclude y) with
      | inr err => Returns (None, Some err)
      | inl inc =>
          match compilePatterns (yExclude y) with
          | inr err => Returns (None, Some err)
          | inl exc =>
              match compileRules (yRules y) with
              | Panics => Panics
              | Returns (inr err) => Returns (None, Some err)
              | Returns (inl compiled) =>
                  Returns
                    (Some (Defs (yInclude y) (yExclude y) (initRule <$> compiled)
                             inc exc),
                     None)
              end
          end
      end
  end.

(** ** [adjustExpectedFilenames] *)

Definition adjustRule (filename : string) (r : rule) : rule :=
  let newExpectedFilenames : gmap string bool := ∅ in
  let newExpectedFilenames :=
    if index (expectedFilenames r) filename
    then <[filename := true]> newExpectedFilenames
    else newExpectedFilenames in
  set_expectedFilenames r newExpectedFilenames.

Fixpoint adjustRules (rules : list rule) (filename : string) : list rule :=
  match rules with
  | [] => []
  | r :: rest => adjustRule filename r :: adjustRules rest filename
  end.

Definition adjustExpectedFilenames (d : defs) (filename : string) : defs :=
  set_Rules d (adjustRules (Rules d) filename).

(** ** [Mismatches] *)

(** [for k := range keys { if !other[k] { acc = append(acc, k) } }] *)
Fixpoint notIn (other : gmap string bool) (keys : list string) (acc : list string)
  : list string :=
  match keys with
  | [] => acc
  | k :: rest =>
      if negb (index other k) then notIn other rest (acc ++ [k])
      else notIn other rest acc
  end.

Definition Mismatches (r : rule) : list string * list string :=
  let shouldNotBeThere := notIn (expectedFilenames r) (range (actualFilenames r)) [] in
  let shouldBeThere := notIn (actualFilenames r) (range (expectedFilenames r)) [] in
  (shouldNotBeThere, shouldBeThere).

(** ** [matchAgainstLine] *)

Definition matchRule (filename line : string) (r : rule) : rule :=
  if regexp_Match (pattern r) line
  then set_actualFilenames r (<[filename := true]> (actualFilenames r))
  else r.

Fixpoint matchRules (rules : list rule) (filename line : string) : list rule :=
  match rules with
  | [] => []
  | r :: rest => matchRule filename line r :: matchRules rest filename line
  end.

Definition matchAgainstLine (d : defs) (filename line : string) : defs :=
  set_Rules d (matchRules (Rules d) filename line).

(** ** [shouldCheck] *)

(** [for _, p := range patterns { if p.Match(filename) { return ... } }]:
    whether the loop returns from inside its body. *)
Fixpoint anyMatch (patterns : list Regexp) (filename : string) : bool :=
  match patterns with
  | [] => false
  | p :: rest => if regexp_Match p filename then true else anyMatch rest filename
  end.

Definition shouldCheck (d : defs) (filename : string) : bool :=
  if anyMatch (exclude d) filename then false
  else if anyMatch (include d) filename then true
  else false.

(** ** [matchAgainstFile] *)

(** What the program can observe of a file: the bytes its reads deliver and
    the error that ends them ([io.EOF] for a file read to its end, another
    error when a read fails on the way). *)
Record file := File {
  content : string;
  readerr : error
}.

(** The results of the successive [reader.ReadString('\n')] calls on a
    [bufio.Reader]: a line with its delimiter and a [nil] error, or, when
    the input ends before a delimiter is found, the data read so far
    together with the error. *)
Inductive reads :=
| ReadLine (line : string) (next : reads)
| ReadEnd (data : string) (err : error).

(** [bufio.NewReader(file)], as the sequence of its [ReadString] results;
    [cur] holds the bytes read since the last delimiter. *)
Fixpoint readFrom (cur : string) (bytes : string) (err : error) : reads :=
  match bytes with
  | EmptyString => ReadEnd cur err
  | String c rest =>
      if Ascii.eqb c newline
      then ReadLine (cur +:+ String c EmptyString) (readFrom EmptyString rest err)
      else readFrom (cur +:+ String c EmptyString) rest err
  end.

Definition NewReader (f : file) : reads :=
  readFrom EmptyString (content f) (readerr f).

(** The [for] loop of [matchAgainstFile]. *)
Fixpoint readLoop (d : defs) (filename : string) (reader : reads)
  : defs * option error :=
  match reader with
  | ReadEnd line err =>
      if decide (err = io_EOF) then (d, None) else (d, Some err)
  | ReadLine line next =>
      readLoop (matchAgainstLine d filename line) filename next
  end.

(** [opened] is the result of [os.Open(filename)]. *)
Definition matchAgainstFile (d : defs) (filename : string) (opened : file + error)
  : defs * option error :=
  match opened with
  | inr err => (d, Some err)
  | inl f => readLoop d filename (NewReader f)
  end.

(** ** [exploreDir] *)

(** The tree below a directory, as [exploreDir] sees it: the result of
    [ioutil.ReadDir] on the directory and, for each entry, its name and what
    [fi.Mode()] says of it. *)
Inductive dir :=
| ReadDirError (err : error)
| ReadDirOk (files : list (string * FileInfo))
with FileInfo :=
| IsDir (sub : dir)
| IsRegular (opened : file + error)
| IsOther.

Fixpoint exploreDir (d : defs) (dirname : string) (t : dir) {struct t}
  : defs * option error :=
  match t with
  | ReadDirError err => (d, Some err)
  | ReadDirOk files =>
      (fix loop (d : defs) (files : list (string * FileInfo)) {struct files}
         : defs * option error :=
         match files with
         | [] => (d, None)
         | (name, fi) :: rest =>
             let filename := filepath_Join dirname name in
             match fi with
             | IsDir sub =>
                 match exploreDir d filename sub with
                 | (d', Some err) => (d', Some err)
                 | (d', None) => loop d' rest
                 end
             | IsRegular opened =>
                 if shouldCheck d filename then
                   match matchAgainstFile d filename opened with
                   | (d', Some err) => (d', Some err)
                   | (d', None) => loop d' rest
                   end
                 else loop d rest
             | IsOther => loop d rest
             end
         end) d files
  end.

(** The body of the [for _, fi := range files] loop, for one entry. *)
Definition exploreEntry (d : defs) (dirname : string) (e : string * FileInfo)
  : defs * option error :=
  let filename := filepath_Join dirname e.1 in
  match e.2 with
  | IsDir sub => exploreDir d filename sub
  | IsRegular opened =>
      if shouldCheck d filename then matchAgainstFile d filename opened
      else (d, None)
  | IsOther => (d, None)
  end.

(** The loop itself. *)
Fixpoint exploreFiles (d : defs) (dirname : string) (files : list (string * FileInfo))
  : defs * option error :=
  match files with
  | [] => (d, None)
  | e :: rest =>
      match exploreEntry d dirname e with
      | (d', Some err) => (d', Some err)
      | (d', None) => exploreFiles d' dirname rest
      end
  end.

(** ** [main] *)

(** The operating system as [main] meets it. *)
Record os := Os {
  Args : list string;
  (** [ioutil.ReadFile] *)
  ReadFile : string → string + error;
  (** [os.Open] *)
  Open : string → file + error;
  (** the tree below the current directory *)
  cwd : dir
}.

(** How the process ends: [os.Exit] (or the return from [main]) with an exit
    status and what was written to standard output and standard error, or a
    nil-pointer panic. *)
Inductive exit :=
| Exit (status : nat) (stdout : list string) (stderr : list string)
| Panic.

Definition oops (out : list string) (err : error) : exit :=
  Exit 1 out [error_Error err].

Definition nl : string := String newline EmptyString.

(** [len(shouldNotBeThere) != 0 || len(shouldBeThere) != 0] *)
Definition mismatched (r : rule) : bool :=
  let '(shouldNotBeThere, shouldBeThere) := Mismatches r in
  negb (length shouldNotBeThere =? 0) || negb (length shouldBeThere =? 0).

Definition printList (l : list string) : list string :=
  flat_map (λ s, ["   - "; s +:+ nl]) l.

(** What the body of [for _, rule := range results.Rules] prints. *)
Definition report (singleFileMode : bool) (r : rule) : list string :=
  let '(shouldNotBeThere, shouldBeThere) := Mismatches r in
  if negb (length shouldNotBeThere =? 0) || negb (length shouldBeThere =? 0) then
    if singleFileMode then
      if negb (length shouldNotBeThere =? 0) then
        ["Lidded pattern '" +:+ Pattern r +:+ "' found" +:+ nl]
      else if negb (length shouldBeThere =? 0) then
        ["Lidded pattern '" +:+ Pattern r +:+ "' expected but not found" +:+ nl]
      else []
    else
      [Pattern r +:+ nl]
      ++ (if negb (length shouldNotBeThere =? 0)
          then ("  didn't expect to find:" +:+ nl) :: printList shouldNotBeThere
          else [])
      ++ (if negb (length shouldBeThere =? 0)
          then ("  expected exceptions which were missing:" +:+ nl) :: printList shouldBeThere
          else [])
  else [].

(** The part of [main] after the scan succeeded. *)
Definition reconcile (singleFileMode : bool) (results : defs) : exit :=
  let out := flat_map (report singleFileMode) (Rules results) in
  let testFailed := existsb mismatched (Rules results) in
  if testFailed then Exit 2 (out ++ [nl +:+ "lid test failed. sorry." +:+ nl]) []
  else Exit 0 (out ++ ["ok" +:+ String "009" EmptyString
                         +:+ "lid on all the things, nothing to see here." +:+ nl]) [].

Definition usage : exit :=
  Exit 1
    ["usage: lidder config.yaml [file]" +:+ nl;
     "  -- If [file] is not specified, defaults to scanning all files from the current directory recursively" +:+ nl]
    [].

(** The scan [main] chooses: the single named file when there is one and
    [shouldCheck] accepts it, the whole tree below [.] otherwise. *)
Definition scan (w : os) (results : defs) : bool * (defs * option error) :=
  match Args w with
  | [_; _; target] =>
      if shouldCheck results target then
        let results := adjustExpectedFilenames results target in
        (true, matchAgainstFile results target (Open w target))
      else (false, exploreDir results "." (cwd w))
  | _ => (false, exploreDir results "." (cwd w))
  end.

Definition main (w : os) : exit :=
  if negb (length (Args w) =? 2) && negb (length (Args w) =? 3) then usage
  else
    match ReadFile w (nth 1 (Args w) EmptyString) with
    | inr err => oops [] err
    | inl config =>
        match parse config with
        | Panics => Panic
        | Returns (_, Some err) => oops [] err
        | Returns (None, None) => Panic
        | Returns (Some results, None) =>
            match scan w results with
            | (_, (_, Some err)) => oops [] err
            | (singleFileMode, (results, None)) => reconcile singleFileMode results
            end
        end
    end.

End Lidder.

Arguments rule {_}.
Arguments defs {_}.
Arguments file {_}.
Arguments reads {_}.
Arguments dir {_}.
Arguments FileInfo {_}.
Arguments os {_}.

(** ** Notions the statements use *)

Section Notions.
Context `{GoLibs}.

(** The program only ever stores [true] in its maps: every key present
    stands for a path of the set. *)
Definition allTrue (m : gmap string bool) : Prop :=
  ∀ k v, m !! k = Some v → v = true.

Definition rule_wf (r : rule) : Prop :=
  allTrue (expectedFilenames r) ∧ allTrue (actualFilenames r).

Definition defs_wf (d : defs) : Prop :=
  Forall rule_wf (Rules d).

(** One call of [matchAgainstLine], on a pair of a file name and a line. *)
Definition step (d : defs) (fl : string * string) : defs :=
  matchAgainstLine d fl.1 fl.2.

(** A rule after a scan differs from the rule before in [actualFilenames]
    at most. *)
Definition sameButActual (r r' : rule) : Prop :=
  Pattern r' = Pattern r ∧ Expected r' = Expected r ∧ pattern r' = pattern r
  ∧ expectedFilenames r' = expectedFilenames r.

(** Two trees that differ in the order of directory entries only, at any
    depth. *)
Inductive dir_perm : dir → dir → Prop :=
| dir_perm_refl t : dir_perm t t
| dir_perm_files files files' :
    files_perm files files' → dir_perm (ReadDirOk files) (ReadDirOk files')
with files_perm : list (string * FileInfo) → list (string * FileInfo) → Prop :=
| files_perm_nil : files_perm [] []
| files_perm_skip e l l' : files_perm l l' → files_perm (e :: l) (e :: l')
| files_perm_sub name t t' l l' :
    dir_perm t t' → files_perm l l' →
    files_perm ((name, IsDir t) :: l) ((name, IsDir t') :: l')
| files_perm_swap e1 e2 l : files_perm (e1 :: e2 :: l) (e2 :: e1 :: l)
| files_perm_trans l1 l2 l3 :
    files_perm l1 l2 → files_perm l2 l3 → files_perm l1 l3.

(** Induction on both relations at once. *)
Scheme dir_perm_mut := Minimality for dir_perm Sort Prop
  with files_perm_mut := Minimality for files_perm Sort Prop.
Combined Scheme dir_files_perm_mutind from dir_perm_mut, files_perm_mut.

(** Two results of a traversal agree: both are errors, or both are the same
    state without an error. *)
Definition agree (r r' : defs * option error) : Prop :=
  (r.2 = None ↔ r'.2 = None) ∧ (r.2 = None → r.1 = r'.1).

(** The lines [ReadString] delivers with a [nil] error ... *)
Fixpoint linesOf (reader : reads) : list string :=
  match reader with
  | ReadLine line next => line :: linesOf next
  | ReadEnd _ _ => []
  end.

(** ... and what [matchAgainstFile] makes of the error that ends the reads. *)
Fixpoint endOf (reader : reads) : option error :=
  match reader with
  | ReadLine _ next => endOf next
  | ReadEnd _ err => if decide (err = io_EOF) then None else Some err
  end.

Fixpoint noNewline (s : string) : bool :=
  match s with
  | EmptyString => true
  | String c rest => negb (Ascii.eqb c newline) && noNewline rest
  end.

(** The rules of a configuration that are not nil. *)
Definition rulesOf (y : yamlDefs) : list yamlRule := omap id (yRules y).

(** All the patterns of a configuration, in the order [parse] compiles
    them. *)
Definition allPatterns (y : yamlDefs) : list string :=
  yInclude y ++ yExclude y ++ (yPattern <$> rulesOf y).

(** The pattern of an entry of [Rules], if the entry is not nil. *)
Definition rulePattern (r : option yamlRule) : option string := yPattern <$> r.

(** What [parse] goes through, in order: the include patterns, the exclude
    patterns and the rules, each with its pattern or nil. *)
Definition allItems (y : yamlDefs) : list (option string) :=
  (Some <$> yInclude y) ++ (Some <$> yExclude y) ++ (rulePattern <$> yRules y).

Definition invalid (expr : string) : Prop :=
  ∃ err, regexp_Compile expr = inr err.

Definition valid (expr : string) : Prop :=
  ∃ re, regexp_Compile expr = inl re.

(** Going through items in order as [parse] does: the error of the first
    pattern that does not compile, a panic at the first nil, whichever comes
    first. *)
Fixpoint compileItems (items : list (option string)) : call (list Regexp + error) :=
  match items with
  | [] => Returns (inl [])
  | None :: _ => Panics
  | Some expr :: rest =>
      match regexp_Compile expr with
      | inr err => Returns (inr err)
      | inl re =>
          match compileItems rest with
          | Panics => Panics
          | Returns (inr err) => Returns (inr err)
          | Returns (inl res) => Returns (inl (re :: res))
          end
      end
  end.

(** Where a pattern sits in the configuration. *)
Inductive position :=
| InInclude (i : nat)
| InExclude (i : nat)
| InRules (i : nat).

(** The pattern at a position. *)
Definition patternAt (y : yamlDefs) (pos : position) : option string :=
  match pos with
  | InInclude i => yInclude y !! i
  | InExclude i => yExclude y !! i
  | InRules i => yRules y !! i ≫= rulePattern
  end.

(** The error of [parse] tells the position of an invalid pattern: some
    reading [locate] of the error gives, for every configuration whose only
    invalid pattern sits at [pos], that [pos]. *)
Definition errorLocatesPattern : Prop :=
  ∃ locate : error → position,
    ∀ input y pos expr,
      yaml_Unmarshal input = inl y →
      patternAt y pos = Some expr → invalid expr →
      (∀ pos' expr', patternAt y pos' = Some expr' → pos' ≠ pos → valid expr') →
      ∃ err, parse input = Returns (None, Some err) ∧ locate err = pos.

End Notions.

(** ** What a traversal reaches *)

Section Reach.
Context `{GoLibs}.

(** The data [ReadString] returns together with the error that ends the
    reads: the bytes after the last newline. *)
Fixpoint pending (reader : reads) : string :=
  match reader with
  | ReadLine _ next => pending next
  | ReadEnd data _ => data
  end.

(** The regular files of a tree, each under the name [exploreDir] builds for
    it with [filepath.Join], and what [os.Open] gives for it. *)
Inductive fileAt : string → dir → string → file + error → Prop :=
| fileAt_here dirname files name opened :
    (name, IsRegular opened) ∈ files →
    fileAt dirname (ReadDirOk files) (filepath_Join dirname name) opened
| fileAt_below dirname files name sub path opened :
    (name, IsDir sub) ∈ files →
    fileAt (filepath_Join dirname name) sub path opened →
    fileAt dirname (ReadDirOk files) path opened.

(** The directories of a tree that [ioutil.ReadDir] fails on, with the
    error. *)
Inductive dirErrorAt : string → dir → string → error → Prop :=
| dirErrorAt_here dirname err : dirErrorAt dirname (ReadDirError err) dirname err
| dirErrorAt_below dirname files name sub path err :
    (name, IsDir sub) ∈ files →
    dirErrorAt (filepath_Join dirname name) sub path err →
    dirErrorAt dirname (ReadDirOk files) path err.

(** Every directory can be listed, and every file [shouldCheck] accepts can
    be opened and read to its end. *)
Definition readable (d : defs) (dirname : string) (t : dir) : Prop :=
  (∀ path err, ¬ dirErrorAt dirname t path err)
  ∧ (∀ path opened,
       fileAt dirname t path opened → shouldCheck d path = true →
       ∃ f, opened = inl f ∧ readerr f = io_EOF).

(** The pattern of [r] matches a newline-terminated line of a file of the
    tree that [shouldCheck] accepts. *)
Definition found (d : defs) (dirname : string) (t : dir) (r : rule) (path : string)
  : Prop :=
  ∃ f line,
    fileAt dirname t path (inl f) ∧ shouldCheck d path = true
    ∧ line ∈ linesOf (NewReader f) ∧ regexp_Match (pattern r) line = true.

(** The same process started with other arguments. *)
Definition setArgs (w : os) (args : list string) : os :=
  Os args (ReadFile w) (Open w) (cwd w).

(** The last line [main] prints when every rule is in order ... *)
Definition okMessage : string :=
  "ok" +:+ String "009" EmptyString
  +:+ "lid on all the things, nothing to see here." +:+ nl.

(** ... and when some rule is not. *)
Definition failedMessage : string :=
  nl +:+ "lid test failed. sorry." +:+ nl.

(** What single-file mode prints for a rule, from whether the file is
    expected and whether the pattern was seen in it. *)
Definition singleFileLine (r : rule) (expected seen : bool) : list string :=
  match expected, seen with
  | false, true => ["Lidded pattern '" +:+ Pattern r +:+ "' found" +:+ nl]
  | true, false =>
      ["Lidded pattern '" +:+ Pattern r +:+ "' expected but not found" +:+ nl]
  | _, _ => []
  end.

(** Definitions that carry nothing but the two lists of path filters. *)
Definition filters (inc exc : list Regexp) : defs := Defs [] [] [] inc exc.

(** The regular files and the unreadable directories one entry of the
    directory [dirname] contributes. *)
Definition entryFile (dirname : string) (e : string * FileInfo)
    (path : string) (opened : file + error) : Prop :=
  match e.2 with
  | IsDir sub => fileAt (filepath_Join dirname e.1) sub path opened
  | IsRegular o => path = filepath_Join dirname e.1 ∧ opened = o
  | IsOther => False
  end.

Definition entryDirError (dirname : string) (e : string * FileInfo) : Prop :=
  match e.2 with
  | IsDir sub => ∃ path err, dirErrorAt (filepath_Join dirname e.1) sub path err
  | _ => False
  end.

(** What a part [run] of a traversal does, given the files [F] it can meet
    and whether it meets an unreadable directory ([D]): it makes the calls
    of [matchAgainstLine] of some list [trace], all of them on lines of
    accepted files of [F]; when it ends without error these are all such
    lines; and it ends without error exactly when nothing is unreadable. *)
Definition summary (inc exc : list Regexp) (run : defs → defs * option error)
    (F : string → file + error → Prop) (D : Prop) : Prop :=
  ∃ trace err,
    (∀ d, include d = inc → exclude d = exc → run d = (foldl step d trace, err))
    ∧ (∀ path line,
         (path, line) ∈ trace →
         ∃ f, F path (inl f) ∧ shouldCheck (filters inc exc) path = true
              ∧ line ∈ linesOf (NewReader f))
    ∧ (err = None →
       ∀ path f line,
         F path (inl f) → shouldCheck (filters inc exc) path = true →
         line ∈ linesOf (NewReader f) → (path, line) ∈ trace)
    ∧ (err = None
       ↔ ¬ D ∧ ∀ path opened,
                 F path opened → shouldCheck (filters inc exc) path = true →
                 ∃ f, opened = inl f ∧ readerr f = io_EOF).

(** The operation of the tree that fails with [err]: the listing of a
    directory, the opening of a file [shouldCheck] accepts, or a read of
    such a file. *)
Definition culprit (d : defs) (dirname : string) (t : dir) (err : error) : Prop :=
  (∃ path, dirErrorAt dirname t path err)
  ∨ (∃ path, fileAt dirname t path (inr err) ∧ shouldCheck d path = true)
  ∨ (∃ path f, fileAt dirname t path (inl f) ∧ shouldCheck d path = true
               ∧ readerr f = err ∧ err ≠ io_EOF).

End Reach.

(** ** A concrete run-time for the examples

    The libraries are instantiated on the fragment the examples need:
    regular expressions without metacharacters, which [regexp] matches as
    substrings, and the malformed pattern [(]; the YAML documents of the
    examples; [filepath.Join] on clean relative names. *)

Module Sample.

Inductive goError :=
| EOF
| PathError (op path msg : string)
| SyntaxError (code expr : string)
| Unsupported (what : string).

#[export] Instance goError_eq_dec : EqDecision goError.
Proof. solve_decision. Defined.

Definition Error (e : goError) : string :=
  match e with
  | EOF => "EOF"
  | PathError op path msg => op +:+ " " +:+ path +:+ ": " +:+ msg
  | SyntaxError code expr =>
      "error parsing regexp: " +:+ code +:+ ": `" +:+ expr +:+ "`"
  | Unsupported what => "unsupported: " +:+ what
  end.

(** Letters, digits, space, [_], [-] and [/] stand for themselves in a
    regular expression. *)
Definition plain (c : ascii) : bool :=
  let n := nat_of_ascii c in
  ((48 <=? n) && (n <=? 57)) || ((65 <=? n) && (n <=? 90))
  || ((97 <=? n) && (n <=? 122))
  || (n =? 32) || (n =? 95) || (n =? 45) || (n =? 47).

Fixpoint allPlain (s : string) : bool :=
  match s with
  | EmptyString => true
  | String c rest => plain c && allPlain rest
  end.

(** [regexp.Compile] on this fragment: a pattern of plain characters
    compiles to itself; [(] is refused as [regexp] refuses it; any other
    pattern is outside the fragment. *)
Definition Compile (expr : string) : string + goError :=
  if allPlain expr then inl expr
  else if String.eqb expr "(" then inr (SyntaxError "missing closing )" expr)
  else inr (Unsupported expr).

Fixpoint hasPrefix (p s : string) : bool :=
  match p, s with
  | EmptyString, _ => true
  | String a p', String b s' => Ascii.eqb a b && hasPrefix p' s'
  | String _ _, EmptyString => false
  end.

(** An unanchored match of a literal: the literal occurs in the text. *)
Fixpoint Match (re : string) (text : string) : bool :=
  hasPrefix re text
  || match text with
     | EmptyString => false
     | String _ rest => Match re rest
     end.

(** [filepath.Join] of a clean directory name and an entry name: the
    leading [.] is dropped. *)
Definition Join (dirname name : string) : string :=
  if String.eqb dirname "." then name else dirname +:+ "/" +:+ name.

(** One tracked pattern, allowed in [legacy.go]. *)
Definition cfgTodo : yamlDefs :=
  YamlDefs ["go"] ["vendor"] [Some (YamlRule "TODO" ["legacy.go"])].

Definition docTodo : string :=
"include:
- go
exclude:
- vendor
rules:
- pattern: TODO
  expected:
  - legacy.go
".

(** The malformed pattern as the first include pattern ... *)
Definition cfgBadInclude : yamlDefs :=
  YamlDefs ["("] [] [Some (YamlRule "TODO" [])].

Definition docBadInclude : string :=
"include:
- (
rules:
- pattern: TODO
".

(** ... and as the pattern of the first rule. *)
Definition cfgBadRule : yamlDefs :=
  YamlDefs ["go"] [] [Some (YamlRule "(" [])].

Definition docBadRule : string :=
"include:
- go
rules:
- pattern: (
".

(** [yaml.Unmarshal] on the documents above; any other document is outside
    the fragment. *)
(** A null rule before a rule whose pattern is malformed. *)
Definition cfgNullRule : yamlDefs :=
  YamlDefs ["go"] [] [None; Some (YamlRule "(" [])].

Definition docNullRule : string :=
"include:
- go
rules:
- ~
- pattern: (
".

Definition Unmarshal (input : string) : yamlDefs + goError :=
  if String.eqb input docTodo then inl cfgTodo
  else if String.eqb input docBadInclude then inl cfgBadInclude
  else if String.eqb input docBadRule then inl cfgBadRule
  else if String.eqb input docNullRule then inl cfgNullRule
  else inr (Unsupported "yaml document").

#[export] Instance libs : GoLibs := {|
  error := goError;
  error_Error := Error;
  io_EOF := EOF;
  Regexp := string;
  regexp_Compile := Compile;
  regexp_Match := Match;
  yaml_Unmarshal := Unmarshal;
  filepath_Join := Join
|}.

(** The definitions [parse] builds from [docTodo]. *)
Definition todoDefs : defs :=
  Defs ["go"] ["vendor"]
    [Rule "TODO" ["legacy.go"] "TODO" {["legacy.go" := true]} ∅]
    ["go"] ["vendor"].

Definition healthy (text : string) : FileInfo :=
  IsRegular (inl (File text EOF)).

Definition legacy_go : string * FileInfo :=
  ("legacy.go", healthy ("// TODO: remove" +:+ nl)).

Definition new_go : string * FileInfo :=
  ("new.go", healthy ("x := 1 // TODO" +:+ nl +:+ "y := 2 // TODO" +:+ nl)).

Definition a_go : string * FileInfo :=
  ("a.go", healthy ("package pkg" +:+ nl +:+ "// TODO" +:+ nl)).

Definition b_go : string * FileInfo :=
  ("b.go", healthy ("package pkg" +:+ nl)).

Definition lib_go : string * FileInfo :=
  ("lib.go", healthy ("TODO" +:+ nl)).

Definition vendor : string * FileInfo :=
  ("vendor", IsDir (ReadDirOk [lib_go])).

Definition tree : dir :=
  ReadDirOk [legacy_go; new_go; ("pkg", IsDir (ReadDirOk [a_go; b_go])); vendor].

(** The same tree with its entries in another order, at both levels. *)
Definition shuffled : dir :=
  ReadDirOk [("pkg", IsDir (ReadDirOk [b_go; a_go])); new_go; vendor; legacy_go].

Definition denied : goError := PathError "open" "sub" "permission denied".

(** A tree with a directory that cannot be read, between two files. *)
Definition sub : string * FileInfo :=
  ("sub", IsDir (ReadDirError denied)).

Definition broken : dir := ReadDirOk [legacy_go; sub; new_go].

Definition noFile (path : string) : file + goError :=
  inr (PathError "open" path "no such file or directory").

(** The rule of [todoDefs] after the scan of a tree where [legacy.go] and
    [new.go] hold the pattern. *)
Definition scannedRule : rule :=
  Rule "TODO" ["legacy.go"] "TODO"
    {["legacy.go" := true]} (<["new.go" := true]> {["legacy.go" := true]}).

(** A rule that allows two files. *)
Definition twoFiles : defs :=
  Defs [] [] [Rule "TODO" ["a.go"; "b.go"] "TODO"
                (<["b.go" := true]> {["a.go" := true]}) ∅] [] [].

(** [lidder lidder.yaml] in a directory holding [lidder.yaml] and [cwd]. *)
Definition fullTree (cwd : dir) : os :=
  Os ["lidder"; "lidder.yaml"] (λ _, inl docTodo) noFile cwd.

(** [lidder lidder.yaml new.go], for a file [new.go] with the bytes [bytes]. *)
Definition singleFile (bytes : string) : os :=
  Os ["lidder"; "lidder.yaml"; "new.go"] (λ _, inl docTodo)
     (λ _, inl (File bytes EOF)) (ReadDirOk []).

(** The rule of [todoDefs]. *)
Definition todoRule : rule :=
  Rule "TODO" ["legacy.go"] "TODO" {["legacy.go" := true]} ∅.

Definition onlyLegacy : dir := ReadDirOk [legacy_go].

Definition onlyVendor : dir := ReadDirOk [vendor].

(** [lidder lidder.yaml vendor/lib.go]: the named file is excluded. *)
Definition excludedFile : os :=
  Os ["lidder"; "lidder.yaml"; "vendor/lib.go"] (λ _, inl docTodo) noFile tree.

(** [lidder lidder.yaml] with a configuration whose rule does not compile. *)
Definition badConfig : os :=
  Os ["lidder"; "lidder.yaml"] (λ _, inl docBadRule) noFile tree.

(** The error of [regexp.Compile] on the malformed pattern. *)
Definition unclosed : error := SyntaxError "missing closing )" "(".

(** [lidder lidder.yaml] with a configuration whose first rule is null. *)
Definition nullConfig : os :=
  Os ["lidder"; "lidder.yaml"] (λ _, inl docNullRule) noFile tree.

(** A file of the one line [TODO]. *)
Definition todoLine : file := File ("TODO" +:+ nl) EOF.

End Sample.

(** * Properties *)

Section Properties.
Context `{GoLibs}.

Implicit Types (m : gmap string bool) (r : rule) (d : defs).

(** ** Maps used as sets *)

Lemma elem_of_range m k : k ∈ range m ↔ is_Some (m !! k).
Proof.
  unfold range. rewrite list_elem_of_fmap. split.
  - intros [[k' v] [-> Hin]]. apply elem_of_map_to_list in Hin. by exists v.
  - intros [v Hv]. exists (k, v). split; [done|]. by apply elem_of_map_to_list.
Qed.

Lemma NoDup_range m : NoDup (range m).
Proof. apply NoDup_fst_map_to_list. Qed.

Lemma index_true m k : index m k = true ↔ m !! k = Some true.
Proof.
  unfold index. destruct (m !! k) as [[]|]; simpl; split; congruence.
Qed.

Lemma elem_of_paths m k : k ∈ paths m ↔ index m k = true.
Proof.
  unfold paths. rewrite elem_of_dom, index_true. split.
  - intros [v Hv]. apply map_lookup_filter_Some in Hv as [Hv Ht].
    simpl in Ht. by subst.
  - intros Hk. exists true. by apply map_lookup_filter_Some.
Qed.

Lemma allTrue_index m k : allTrue m → (index m k = true ↔ k ∈ range m).
Proof.
  intros Hm. rewrite index_true, elem_of_range. split.
  - by exists true.
  - intros [v Hv]. by rewrite (Hm k v Hv) in Hv.
Qed.

Lemma allTrue_empty : allTrue ∅.
Proof. intros k v Hk. by rewrite lookup_empty in Hk. Qed.

Lemma allTrue_insert m k : allTrue m → allTrue (<[k := true]> m).
Proof.
  intros Hm k' v. rewrite lookup_insert. case_decide.
  - congruence.
  - apply Hm.
Qed.

Lemma paths_empty : paths ∅ = ∅.
Proof. apply set_eq. intros k. rewrite elem_of_paths. set_solver. Qed.

Lemma paths_insert m k : paths (<[k := true]> m) = {[k]} ∪ paths m.
Proof.
  apply set_eq. intros k'.
  rewrite elem_of_union, elem_of_singleton, !elem_of_paths, !index_true.
  rewrite lookup_insert. case_decide as Hk.
  - subst. by split; [left|].
  - split; [by right|]. by intros [->|].
Qed.

(** ** [Mismatches] *)

Lemma notIn_filter other keys acc :
  notIn other keys acc = acc ++ filter (λ k, index other k = false) keys.
Proof.
  revert acc. induction keys as [|k keys IH]; intros acc; simpl.
  - by rewrite app_nil_r.
  - rewrite filter_cons. case_decide as Hk.
    + rewrite Hk. simpl. rewrite IH, <- app_assoc. done.
    + apply not_false_is_true in Hk. rewrite Hk. apply IH.
Qed.

Lemma elem_of_shouldNotBeThere r p :
  p ∈ (Mismatches r).1 ↔
  p ∈ range (actualFilenames r) ∧ index (expectedFilenames r) p = false.
Proof.
  simpl. rewrite notIn_filter. simpl. rewrite list_elem_of_filter. tauto.
Qed.

Lemma elem_of_shouldBeThere r p :
  p ∈ (Mismatches r).2 ↔
  p ∈ range (expectedFilenames r) ∧ index (actualFilenames r) p = false.
Proof.
  simpl. rewrite notIn_filter. simpl. rewrite list_elem_of_filter. tauto.
Qed.

Lemma NoDup_Mismatches r : NoDup (Mismatches r).1 ∧ NoDup (Mismatches r).2.
Proof.
  simpl. rewrite !notIn_filter. simpl.
  split; apply NoDup_filter, NoDup_range.
Qed.

Lemma list_to_set_empty_iff (l : list string) :
  (list_to_set l : gset string) = ∅ ↔ l = [].
Proof.
  split; [|by intros ->].
  destruct l as [|x l]; [done|]. intros Hl.
  assert (x ∈ (∅ : gset string)) as Hx by (rewrite <- Hl; set_solver).
  set_solver.
Qed.

Lemma mismatched_false r :
  mismatched r = false ↔ (Mismatches r).1 = [] ∧ (Mismatches r).2 = [].
Proof.
  unfold mismatched. destruct (Mismatches r) as [a b]. simpl.
  rewrite orb_false_iff, !negb_false_iff, !Nat.eqb_eq.
  split; intros [Ha Hb].
  - by apply nil_length_inv in Ha, Hb.
  - by subst.
Qed.

(** C2: on a rule whose maps hold [true] only, as every rule of the program
    does, [Mismatches] returns, as sets of paths, [actualFiles] minus
    [expectedFiles] and [expectedFiles] minus [actualFiles], each path once;
    and the test of [main] finds the rule in order exactly when both sets
    are empty. *)
Theorem Mismatches_set_difference r :
  rule_wf r →
  (list_to_set (Mismatches r).1 : gset string)
    = paths (actualFilenames r) ∖ paths (expectedFilenames r)
  ∧ (list_to_set (Mismatches r).2 : gset string)
    = paths (expectedFilenames r) ∖ paths (actualFilenames r)
  ∧ NoDup (Mismatches r).1 ∧ NoDup (Mismatches r).2
  ∧ (mismatched r = false ↔
     (list_to_set (Mismatches r).1 : gset string) = ∅
     ∧ (list_to_set (Mismatches r).2 : gset string) = ∅).
Proof.
  intros [He Ha]. split_and!; try apply NoDup_Mismatches.
  - apply set_eq. intros p.
    rewrite elem_of_list_to_set, elem_of_shouldNotBeThere, elem_of_difference.
    rewrite !elem_of_paths, (allTrue_index _ _ Ha), not_true_iff_false. done.
  - apply set_eq. intros p.
    rewrite elem_of_list_to_set, elem_of_shouldBeThere, elem_of_difference.
    rewrite !elem_of_paths, (allTrue_index _ _ He), not_true_iff_false. done.
  - rewrite !list_to_set_empty_iff. apply mismatched_false.
Qed.

(** C6: on such a rule no path is both in [extra] and in [missing]. *)
Theorem Mismatches_disjoint r :
  rule_wf r →
  (∀ p, p ∈ (Mismatches r).1 → p ∉ (Mismatches r).2)
  ∧ (list_to_set (Mismatches r).1 : gset string) ## list_to_set (Mismatches r).2.
Proof.
  intros [He Ha].
  assert (∀ p, p ∈ (Mismatches r).1 → p ∉ (Mismatches r).2) as Hdis.
  { intros p [Hin Hne]%elem_of_shouldNotBeThere [Hin' _]%elem_of_shouldBeThere.
    apply (allTrue_index _ _ He) in Hin'. congruence. }
  split; [done|].
  intros p Hp1%elem_of_list_to_set Hp2%elem_of_list_to_set.
  by apply (Hdis p).
Qed.

(** ** Rule by rule *)

Lemma Forall2_fmap_self {A} (P : A → A → Prop) (f : A → A) (l : list A) :
  (∀ x, P x (f x)) → Forall2 P l (f <$> l).
Proof. intros HP. induction l; constructor; auto. Qed.

Lemma adjustRules_fmap rules filename :
  adjustRules rules filename = adjustRule filename <$> rules.
Proof. induction rules as [|r rules IH]; simpl; [done|]. by rewrite IH. Qed.

Lemma matchRules_fmap rules filename line :
  matchRules rules filename line = matchRule filename line <$> rules.
Proof. induction rules as [|r rules IH]; simpl; [done|]. by rewrite IH. Qed.

(** ** [adjustExpectedFilenames] *)

Lemma adjustRule_narrows target r :
  expectedFilenames (adjustRule target r)
    = (if index (expectedFilenames r) target then {[target := true]} else ∅)
  ∧ paths (expectedFilenames (adjustRule target r))
    = (if decide (target ∈ paths (expectedFilenames r)) then {[target]} else ∅)
  ∧ actualFilenames (adjustRule target r) = actualFilenames r.
Proof.
  unfold adjustRule. simpl. split_and!; try done.
  case_decide as Hin; rewrite elem_of_paths in Hin.
  - rewrite Hin, paths_insert, paths_empty. apply union_empty_r_L.
  - apply not_true_is_false in Hin. rewrite Hin. apply paths_empty.
Qed.

(** C4: [adjustExpectedFilenames] leaves every rule with the expected files
    [{target}] when [target] was expected, and with none otherwise; nothing
    else changes. *)
Theorem adjustExpectedFilenames_narrows d target :
  Forall2
    (λ r r',
       expectedFilenames r'
         = (if index (expectedFilenames r) target then {[target := true]} else ∅)
       ∧ paths (expectedFilenames r')
         = (if decide (target ∈ paths (expectedFilenames r)) then {[target]} else ∅)
       ∧ actualFilenames r' = actualFilenames r
       ∧ pattern r' = pattern r ∧ Pattern r' = Pattern r ∧ Expected r' = Expected r)
    (Rules d) (Rules (adjustExpectedFilenames d target))
  ∧ include (adjustExpectedFilenames d target) = include d
  ∧ exclude (adjustExpectedFilenames d target) = exclude d.
Proof.
  split; [|done]. simpl. rewrite adjustRules_fmap.
  apply Forall2_fmap_self. intros r.
  destruct (adjustRule_narrows target r) as (He & Hp & Ha).
  by split_and!.
Qed.

(** ** [matchAgainstLine] *)

Lemma matchRule_same filename line r : sameButActual r (matchRule filename line r).
Proof. unfold matchRule. by destruct (regexp_Match _ _). Qed.

Lemma matchRule_actual filename line r :
  actualFilenames (matchRule filename line r)
  = if regexp_Match (pattern r) line
    then <[filename := true]> (actualFilenames r) else actualFilenames r.
Proof. unfold matchRule. by destruct (regexp_Match _ _). Qed.

Lemma matchRule_lines filename lines r :
  let r' := foldl (λ r line, matchRule filename line r) r lines in
  sameButActual r r'
  ∧ actualFilenames r'
    = if existsb (regexp_Match (pattern r)) lines
      then <[filename := true]> (actualFilenames r) else actualFilenames r.
Proof.
  revert r. induction lines as [|line lines IH]; intros r; simpl; [done|].
  destruct (IH (matchRule filename line r)) as [Hs Ha].
  destruct (matchRule_same filename line r) as (HP & HE & Hp & Hx).
  destruct Hs as (HP' & HE' & Hp' & Hx').
  split; [unfold sameButActual; split_and!; congruence|].
  rewrite Ha, Hp, matchRule_actual.
  destruct (regexp_Match (pattern r) line); simpl; [|done].
  rewrite insert_insert_eq.
  by destruct (existsb (regexp_Match (pattern r)) lines).
Qed.

Lemma Rules_foldl_matchAgainstLine d filename lines :
  Rules (foldl (λ d line, matchAgainstLine d filename line) d lines)
  = (λ r, foldl (λ r line, matchRule filename line r) r lines) <$> Rules d.
Proof.
  revert d. induction lines as [|line lines IH]; intros d; simpl.
  - by rewrite list_fmap_id.
  - rewrite IH. simpl. rewrite matchRules_fmap, <- list_fmap_compose. done.
Qed.

(** C5: [matchAgainstLine] tests every rule and adds the path to the actual
    files of each rule that matches, whatever the rules before it did; over
    any number of lines of one file the path is added once. *)
Theorem matchAgainstLine_every_rule d path line :
  Forall2
    (λ r r',
       sameButActual r r'
       ∧ actualFilenames r'
         = if regexp_Match (pattern r) line
           then <[path := true]> (actualFilenames r) else actualFilenames r)
    (Rules d) (Rules (matchAgainstLine d path line))
  ∧ ∀ lines,
      Forall2
        (λ r r',
           sameButActual r r'
           ∧ actualFilenames r'
             = (if existsb (regexp_Match (pattern r)) lines
                then <[path := true]> (actualFilenames r) else actualFilenames r)
           ∧ NoDup (range (actualFilenames r')))
        (Rules d)
        (Rules (foldl (λ d line, matchAgainstLine d path line) d lines)).
Proof.
  split.
  - simpl. rewrite matchRules_fmap. apply Forall2_fmap_self. intros r.
    split; [apply matchRule_same | apply matchRule_actual].
  - intros lines. rewrite Rules_foldl_matchAgainstLine.
    apply Forall2_fmap_self. intros r.
    destruct (matchRule_lines path lines r) as [Hs Ha].
    split_and!; [apply Hs | apply Ha | apply NoDup_range].
Qed.

(** ** [shouldCheck] *)

Lemma anyMatch_true patterns filename :
  anyMatch patterns filename = true
  ↔ Exists (λ p, regexp_Match p filename = true) patterns.
Proof.
  induction patterns as [|p patterns IH]; simpl.
  - split; [done|]. by intros ?%Exists_nil.
  - rewrite Exists_cons, <- IH.
    destruct (regexp_Match p filename); split; auto.
    by intros [|].
Qed.

Lemma anyMatch_false patterns filename :
  anyMatch patterns filename = false
  ↔ Forall (λ p, regexp_Match p filename = false) patterns.
Proof.
  induction patterns as [|p patterns IH]; simpl.
  - split; [constructor|done].
  - rewrite Forall_cons, <- IH.
    destruct (regexp_Match p filename); split; auto.
    + done.
    + by intros [].
    + by intros [].
Qed.

(** C3: an exclude pattern that matches wins; otherwise an include pattern
    that matches admits the path; a path no include pattern matches is not
    checked. *)
Theorem shouldCheck_precedence d path :
  (Exists (λ p, regexp_Match p path = true) (exclude d) →
   shouldCheck d path = false)
  ∧ (Forall (λ p, regexp_Match p path = false) (exclude d) →
     Exists (λ p, regexp_Match p path = true) (include d) →
     shouldCheck d path = true)
  ∧ (Forall (λ p, regexp_Match p path = false) (include d) →
     shouldCheck d path = false).
Proof.
  unfold shouldCheck. split_and!.
  - intros Hex%anyMatch_true. by rewrite Hex.
  - intros Hex%anyMatch_false Hin%anyMatch_true. by rewrite Hex, Hin.
  - intros Hin%anyMatch_false. rewrite Hin.
    by destruct (anyMatch (exclude d) path).
Qed.

(** ** The maps hold [true] only *)

Lemma expectedMap_allTrue m expected : allTrue m → allTrue (expectedMap m expected).
Proof.
  revert m. induction expected as [|path rest IH]; intros m Hm; simpl; [done|].
  by apply IH, allTrue_insert.
Qed.

Lemma parse_Some input d err :
  parse input = Returns (Some d, err) →
  err = None ∧ defs_wf d ∧ Forall (λ r, actualFilenames r = ∅) (Rules d).
Proof.
  unfold parse. destruct (yaml_Unmarshal input) as [y|e]; [|done].
  destruct (compilePatterns (yInclude y)) as [inc|e]; [|done].
  destruct (compilePatterns (yExclude y)) as [exc|e]; [|done].
  destruct (compileRules (yRules y)) as [[compiled|e]|]; [|done..].
  intros [= <- <-]. split; [done|]. unfold defs_wf. simpl.
  split; apply Forall_fmap, Forall_forall; intros c _; simpl; [|done].
  split; simpl; [apply expectedMap_allTrue|]; apply allTrue_empty.
Qed.

Lemma matchRule_wf filename line r : rule_wf r → rule_wf (matchRule filename line r).
Proof.
  intros [He Ha]. unfold matchRule. destruct (regexp_Match _ _); [|done].
  split; simpl; [done|]. by apply allTrue_insert.
Qed.

Lemma step_wf d fl : defs_wf d → defs_wf (step d fl).
Proof.
  unfold defs_wf, step. simpl. rewrite matchRules_fmap. intros Hd.
  apply Forall_fmap. eapply Forall_impl; [exact Hd|].
  intros r. apply matchRule_wf.
Qed.

Lemma foldl_step_wf d trace : defs_wf d → defs_wf (foldl step d trace).
Proof.
  revert d. induction trace as [|fl trace IH]; intros d Hd; simpl; [done|].
  by apply IH, step_wf.
Qed.

Lemma adjustExpectedFilenames_wf d filename :
  defs_wf d → defs_wf (adjustExpectedFilenames d filename).
Proof.
  unfold defs_wf. simpl. rewrite adjustRules_fmap. intros Hd.
  apply Forall_fmap. eapply Forall_impl; [exact Hd|].
  intros r [He Ha]. unfold adjustRule. split; simpl; [|done].
  destruct (index _ _); [apply allTrue_insert|]; apply allTrue_empty.
Qed.

Lemma foldl_step_filters d trace :
  include (foldl step d trace) = include d
  ∧ exclude (foldl step d trace) = exclude d.
Proof.
  revert d. induction trace as [|fl trace IH]; intros d; simpl; [done|].
  by destruct (IH (step d fl)) as [-> ->].
Qed.

(** ** Reading a file *)

Lemma readLoop_trace d filename reader :
  readLoop d filename reader
  = (foldl step d (pair filename <$> linesOf reader), endOf reader).
Proof.
  revert d. induction reader as [line next IH|data err]; intros d; simpl.
  - apply IH.
  - by case_decide.
Qed.

Lemma append_empty_r (s : string) : s +:+ EmptyString = s.
Proof.
  induction s as [|c s IH]; [done|].
  change (String c (s +:+ EmptyString) = String c s). by rewrite IH.
Qed.

Lemma append_snoc (s : string) c tail :
  (s +:+ String c EmptyString) +:+ tail = s +:+ String c tail.
Proof.
  induction s as [|c' s IH]; [done|].
  change (String c' ((s +:+ String c EmptyString) +:+ tail)
          = String c' (s +:+ String c tail)).
  by rewrite IH.
Qed.

Lemma readFrom_noNewline cur tail err :
  noNewline tail = true → readFrom cur tail err = ReadEnd (cur +:+ tail) err.
Proof.
  revert cur. induction tail as [|c tail IH]; intros cur; simpl.
  - intros _. by rewrite append_empty_r.
  - intros [Hc Ht]%andb_true_iff. apply negb_true_iff in Hc. rewrite Hc.
    rewrite IH by done. by rewrite append_snoc.
Qed.

(** The data after the last newline of a file never reaches
    [matchAgainstLine]: the scan of a file is the scan of the file cut after
    its last newline. *)
Lemma readLoop_drops_tail d filename cur body tail err :
  noNewline tail = true →
  readLoop d filename (readFrom cur (body +:+ tail) err)
  = readLoop d filename (readFrom cur body err)
  ∧ linesOf (readFrom cur (body +:+ tail) err) = linesOf (readFrom cur body err).
Proof.
  intros Ht. split.
  - revert d cur. induction body as [|c body IH]; intros d cur; simpl.
    + by rewrite readFrom_noNewline.
    + destruct (Ascii.eqb c newline); simpl; apply IH.
  - revert cur. induction body as [|c body IH]; intros cur; simpl.
    + by rewrite readFrom_noNewline.
    + destruct (Ascii.eqb c newline); simpl; [f_equal|]; apply IH.
Qed.

Lemma matchAgainstFile_drops_tail d filename body tail err :
  noNewline tail = true →
  matchAgainstFile d filename (inl (File (body +:+ tail) err))
  = matchAgainstFile d filename (inl (File body err)).
Proof. intros Ht. by apply readLoop_drops_tail. Qed.

Lemma matchAgainstFile_trace d filename opened :
  ∃ trace err, ∀ d,
    matchAgainstFile d filename opened = (foldl step d trace, err).
Proof.
  destruct opened as [f|err]; simpl.
  - eexists _, _. intros d'. apply readLoop_trace.
  - by exists [], (Some err).
Qed.

(** ** Walking a tree *)

Lemma dir_ind' (P : dir → Prop) :
  (∀ err, P (ReadDirError err)) →
  (∀ files,
     Forall (λ e, match e.2 with IsDir sub => P sub | _ => True end) files →
     P (ReadDirOk files)) →
  ∀ t, P t.
Proof.
  intros Herr Hok. fix IH 1. intros [err|files]; [apply Herr|]. apply Hok.
  revert files. fix IHf 1. intros [|[name fi] files]; constructor.
  - destruct fi as [sub| |]; simpl; [apply IH | exact I | exact I].
  - apply IHf.
Qed.

Lemma exploreDir_files d dirname files :
  exploreDir d dirname (ReadDirOk files) = exploreFiles d dirname files.
Proof.
  revert d. induction files as [|[name fi] files IH]; intros d; [done|].
  simpl in *. unfold exploreEntry. simpl.
  destruct fi as [sub|opened|].
  - destruct (exploreDir d (filepath_Join dirname name) sub) as [d' [err|]];
      [done|apply IH].
  - destruct (shouldCheck d (filepath_Join dirname name)); [|apply IH].
    destruct (matchAgainstFile _ _ _) as [d' [err|]]; [done|apply IH].
  - apply IH.
Qed.

Lemma exploreFiles_app d dirname before after :
  exploreFiles d dirname (before ++ after)
  = match exploreFiles d dirname before with
    | (d', Some err) => (d', Some err)
    | (d', None) => exploreFiles d' dirname after
    end.
Proof.
  revert d. induction before as [|e before IH]; intros d; simpl; [done|].
  destruct (exploreEntry d dirname e) as [d' [err|]]; [done|apply IH].
Qed.

Lemma exploreEntry_trace_of dirname e inc exc :
  match e.2 with
  | IsDir sub =>
      ∀ dirname, ∃ trace err, ∀ d,
        include d = inc → exclude d = exc →
        exploreDir d dirname sub = (foldl step d trace, err)
  | _ => True
  end →
  ∃ trace err, ∀ d,
    include d = inc → exclude d = exc →
    exploreEntry d dirname e = (foldl step d trace, err).
Proof.
  destruct e as [name [sub|opened|]]; unfold exploreEntry; simpl.
  - intros Hsub. apply Hsub.
  - intros _.
    destruct (matchAgainstFile_trace (Defs [] [] [] inc exc)
                (filepath_Join dirname name) opened) as (trace & err & Ht).
    destruct (shouldCheck (Defs [] [] [] inc exc) (filepath_Join dirname name))
      eqn:Hcheck.
    + exists trace, err. intros d Hi He.
      unfold shouldCheck in *. simpl in Hcheck. rewrite Hi, He, Hcheck. apply Ht.
    + exists [], None. intros d Hi He.
      unfold shouldCheck in *. simpl in Hcheck. by rewrite Hi, He, Hcheck.
  - intros _. by exists [], None.
Qed.

Lemma exploreFiles_trace_of dirname files inc exc :
  Forall (λ e, ∃ trace err, ∀ d,
            include d = inc → exclude d = exc →
            exploreEntry d dirname e = (foldl step d trace, err)) files →
  ∃ trace err, ∀ d,
    include d = inc → exclude d = exc →
    exploreFiles d dirname files = (foldl step d trace, err).
Proof.
  induction 1 as [|e files (t1 & e1 & H1) _ (t2 & e2 & H2)]; simpl.
  - by exists [], None.
  - destruct e1 as [err|].
    + exists t1, (Some err). intros d Hi He. by rewrite H1.
    + exists (t1 ++ t2), e2. intros d Hi He. rewrite H1 by done.
      destruct (foldl_step_filters d t1) as [Hi' He'].
      rewrite H2, foldl_app by congruence. done.
Qed.

(** What a traversal does to the rules is a sequence of [matchAgainstLine]
    calls that depends on the tree and on the path filters only. *)
Lemma exploreDir_trace t :
  ∀ inc exc dirname, ∃ trace err, ∀ d,
    include d = inc → exclude d = exc →
    exploreDir d dirname t = (foldl step d trace, err).
Proof.
  induction t as [err|files IH] using dir_ind'; intros inc exc dirname.
  - by exists [], (Some err).
  - destruct (exploreFiles_trace_of dirname files inc exc) as (trace & err & Ht).
    { eapply Forall_impl; [exact IH|]. intros [name fi] He.
      apply exploreEntry_trace_of. simpl in *.
      destruct fi as [sub| |]; [|done..]. intros dirname'. apply He. }
    exists trace, err. intros d Hi He. rewrite exploreDir_files. by apply Ht.
Qed.

Lemma exploreEntry_trace dirname e inc exc :
  ∃ trace err, ∀ d,
    include d = inc → exclude d = exc →
    exploreEntry d dirname e = (foldl step d trace, err).
Proof.
  apply exploreEntry_trace_of. destruct (e.2) as [sub| |]; [|done..].
  intros dirname'. apply exploreDir_trace.
Qed.

Lemma exploreDir_wf d dirname t : defs_wf d → defs_wf (exploreDir d dirname t).1.
Proof.
  destruct (exploreDir_trace t (include d) (exclude d) dirname)
    as (trace & err & Ht).
  rewrite Ht by done. apply foldl_step_wf.
Qed.

Lemma matchAgainstFile_wf d filename opened :
  defs_wf d → defs_wf (matchAgainstFile d filename opened).1.
Proof.
  destruct (matchAgainstFile_trace d filename opened) as (trace & err & Ht).
  rewrite Ht. apply foldl_step_wf.
Qed.

(** ** Order of the calls *)

Lemma matchRule_comm f1 l1 f2 l2 r :
  matchRule f1 l1 (matchRule f2 l2 r) = matchRule f2 l2 (matchRule f1 l1 r).
Proof.
  unfold matchRule.
  destruct (regexp_Match (pattern r) l1) eqn:H1,
           (regexp_Match (pattern r) l2) eqn:H2; simpl; rewrite ?H1, ?H2; try done.
  unfold set_actualFilenames. simpl. f_equal.
  destruct (decide (f1 = f2)) as [->|Hne]; [done|].
  by apply insert_insert_ne.
Qed.

Lemma step_comm d a b : step (step d a) b = step (step d b) a.
Proof.
  unfold step, matchAgainstLine, set_Rules. simpl. f_equal.
  rewrite !matchRules_fmap, <- !list_fmap_compose.
  apply list_fmap_ext. intros i r _. simpl. apply matchRule_comm.
Qed.

Lemma foldl_step_cons d a trace :
  foldl step (step d a) trace = step (foldl step d trace) a.
Proof.
  revert d. induction trace as [|b trace IH]; intros d; simpl; [done|].
  by rewrite <- IH, step_comm.
Qed.

Lemma foldl_step_perm d trace trace' :
  trace ≡ₚ trace' → foldl step d trace = foldl step d trace'.
Proof.
  intros Hp. revert d.
  induction Hp as [|a l l' _ IH|a b l|l1 l2 l3 _ IH1 _ IH2]; intros d; simpl.
  - done.
  - apply IH.
  - by rewrite step_comm.
  - by rewrite IH1.
Qed.

(** ** Order of the directory entries *)

Lemma files_perm_refl files : files_perm files files.
Proof. induction files; by constructor. Qed.

(** Every permutation of the entries of a directory is covered. *)
Lemma files_perm_Permutation files files' :
  files ≡ₚ files' → files_perm files files'.
Proof.
  induction 1 as [|e l l' _ IH|e1 e2 l|l1 l2 l3 _ IH1 _ IH2].
  - constructor.
  - by constructor.
  - constructor.
  - by econstructor.
Qed.

Lemma agree_refl (r : defs * option error) : agree r r.
Proof. by split. Qed.

Lemma agree_trans (r1 r2 r3 : defs * option error) :
  agree r1 r2 → agree r2 r3 → agree r1 r3.
Proof.
  intros [H12 E12] [H23 E23]. split.
  - by rewrite H12.
  - intros H1. rewrite E12 by done. apply E23. by apply H12.
Qed.

Lemma agree_error d1 d2 (e1 e2 : error) : agree (d1, Some e1) (d2, Some e2).
Proof. by split. Qed.

Lemma exploreFiles_swap d dirname e1 e2 files :
  agree (exploreFiles d dirname (e1 :: e2 :: files))
        (exploreFiles d dirname (e2 :: e1 :: files)).
Proof.
  destruct (exploreEntry_trace dirname e1 (include d) (exclude d))
    as (t1 & r1 & H1).
  destruct (exploreEntry_trace dirname e2 (include d) (exclude d))
    as (t2 & r2 & H2).
  destruct (foldl_step_filters d t1) as [Hi1 He1].
  destruct (foldl_step_filters d t2) as [Hi2 He2].
  simpl. rewrite (H1 d), (H2 d) by done.
  destruct r1 as [err1|], r2 as [err2|];
    rewrite ?H1, ?H2 by done; try apply agree_error.
  rewrite <- !foldl_app.
  rewrite (foldl_step_perm d (t1 ++ t2) (t2 ++ t1)) by apply Permutation_app_comm.
  apply agree_refl.
Qed.

Lemma perm_agree :
  (∀ t t', dir_perm t t' →
     ∀ d dirname, agree (exploreDir d dirname t) (exploreDir d dirname t'))
  ∧ (∀ files files', files_perm files files' →
       ∀ d dirname,
         agree (exploreFiles d dirname files) (exploreFiles d dirname files')).
Proof.
  apply dir_files_perm_mutind.
  - intros t d dirname. apply agree_refl.
  - intros files files' _ IH d dirname. rewrite !exploreDir_files. apply IH.
  - intros d dirname. apply agree_refl.
  - intros e l l' _ IH d dirname. simpl.
    destruct (exploreEntry d dirname e) as [d' [err|]];
      [apply agree_refl | apply IH].
  - intros name t t' l l' _ IHt _ IHl d dirname. simpl.
    unfold exploreEntry. simpl.
    destruct (IHt d (filepath_Join dirname name)) as [Hnone Hsame].
    destruct (exploreDir d (filepath_Join dirname name) t) as [d1 [err1|]],
             (exploreDir d (filepath_Join dirname name) t') as [d2 [err2|]];
      simpl in *.
    + apply agree_error.
    + destruct Hnone as [_ Hn]. by specialize (Hn eq_refl).
    + destruct Hnone as [Hn _]. by specialize (Hn eq_refl).
    + rewrite Hsame by done. apply IHl.
  - intros e1 e2 l d dirname. apply exploreFiles_swap.
  - intros l1 l2 l3 _ IH1 _ IH2 d dirname. eapply agree_trans; [apply IH1|apply IH2].
Qed.

(** C7: two trees that differ in the order of their directory entries give
    the same outcome: both traversals stop on an error, or both end with the
    same rules, hence the same actual files and the same mismatches. *)
Theorem traversal_order_independent d dirname t t' :
  dir_perm t t' →
  ((exploreDir d dirname t).2 = None ↔ (exploreDir d dirname t').2 = None)
  ∧ ((exploreDir d dirname t).2 = None →
     (exploreDir d dirname t).1 = (exploreDir d dirname t').1
     ∧ actualFilenames <$> Rules (exploreDir d dirname t).1
       = actualFilenames <$> Rules (exploreDir d dirname t').1
     ∧ Mismatches <$> Rules (exploreDir d dirname t).1
       = Mismatches <$> Rules (exploreDir d dirname t').1).
Proof.
  intros Hp. destruct perm_agree as [Hdir _].
  destruct (Hdir t t' Hp d dirname) as [Hnone Hsame].
  split; [done|]. intros Hok. by rewrite (Hsame Hok).
Qed.

(** ** Errors of the input and output operations *)

Lemma endOf_readFrom cur bytes err :
  endOf (readFrom cur bytes err) = if decide (err = io_EOF) then None else Some err.
Proof.
  revert cur. induction bytes as [|c bytes IH]; intros cur; simpl; [done|].
  destruct (Ascii.eqb c newline); simpl; apply IH.
Qed.

(** C9: an error of [ioutil.ReadDir], of [os.Open] or of a read is the
    result of the call it occurs in; the loop of [exploreDir] returns the
    error of the first entry that fails, in the state reached at that point
    and whatever entries follow; and [main] then exits with status 1 and the
    error message, without any report on the rules. *)
Theorem io_error_aborts :
  (∀ d dirname err, exploreDir d dirname (ReadDirError err) = (d, Some err))
  ∧ (∀ d filename err, matchAgainstFile d filename (inr err) = (d, Some err))
  ∧ (∀ d filename f,
       readerr f ≠ io_EOF →
       (matchAgainstFile d filename (inl f)).2 = Some (readerr f))
  ∧ (∀ d dirname before e after d1 d2 err,
       exploreFiles d dirname before = (d1, None) →
       exploreEntry d1 dirname e = (d2, Some err) →
       exploreDir d dirname (ReadDirOk (before ++ e :: after)) = (d2, Some err))
  ∧ (∀ w config results mode d err,
       length (Args w) = 2 ∨ length (Args w) = 3 →
       ReadFile w (nth 1 (Args w) EmptyString) = inl config →
       parse config = Returns (Some results, None) →
       scan w results = (mode, (d, Some err)) →
       main w = Exit 1 [] [error_Error err]).
Proof.
  split_and!.
  - done.
  - done.
  - intros d filename f Hf. simpl. rewrite readLoop_trace. simpl.
    unfold NewReader. rewrite endOf_readFrom. by rewrite decide_False.
  - intros d dirname before e after d1 d2 err Hb He.
    rewrite exploreDir_files, exploreFiles_app, Hb. simpl. by rewrite He.
  - intros w config results mode d err Hargs Hread Hparse Hscan.
    unfold main. rewrite Hread, Hparse, Hscan.
    by destruct Hargs as [-> | ->].
Qed.

(** ** Patterns that do not compile *)

Lemma compileItems_app a b :
  compileItems (a ++ b)
  = match compileItems a with
    | Panics => Panics
    | Returns (inr err) => Returns (inr err)
    | Returns (inl ra) =>
        match compileItems b with
        | Panics => Panics
        | Returns (inr err) => Returns (inr err)
        | Returns (inl rb) => Returns (inl (ra ++ rb))
        end
    end.
Proof.
  induction a as [|[expr|] a IH]; simpl.
  - by destruct (compileItems b) as [[]|].
  - destruct (regexp_Compile expr) as [re|err]; [|done]. rewrite IH.
    destruct (compileItems a) as [[ra|err]|]; [|done..].
    by destruct (compileItems b) as [[]|].
  - done.
Qed.

Lemma compileItems_patterns exprs :
  compileItems (Some <$> exprs) = Returns (compilePatterns exprs).
Proof.
  induction exprs as [|expr exprs IH]; [done|].
  rewrite fmap_cons. cbn [compileItems compilePatterns].
  destruct (regexp_Compile expr) as [re|err]; [|done]. rewrite IH.
  by destruct (compilePatterns exprs).
Qed.

Lemma compileItems_rules rules :
  compileItems (rulePattern <$> rules)
  = match compileRules rules with
    | Panics => Panics
    | Returns (inr err) => Returns (inr err)
    | Returns (inl compiled) => Returns (inl compiled.*2)
    end.
Proof.
  induction rules as [|[r|] rules IH]; [done| |done].
  rewrite fmap_cons. cbn [compileItems compileRules rulePattern fmap option_fmap option_map].
  destruct (regexp_Compile (yPattern r)) as [re|err]; [|done]. rewrite IH.
  by destruct (compileRules rules) as [[]|].
Qed.

(** What [parse] does with a document that decodes is what going through
    its items in order gives. *)
Lemma parse_compileItems input y :
  yaml_Unmarshal input = inl y →
  match compileItems (allItems y) with
  | Panics => parse input = Panics
  | Returns (inr err) => parse input = Returns (None, Some err)
  | Returns (inl _) => ∃ d, parse input = Returns (Some d, None)
  end.
Proof.
  intros Hy. unfold parse, allItems.
  rewrite Hy, !compileItems_app, !compileItems_patterns, compileItems_rules.
  destruct (compilePatterns (yInclude y)) as [inc|e]; [|done].
  destruct (compilePatterns (yExclude y)) as [exc|e]; [|done].
  destruct (compileRules (yRules y)) as [[c|e]|]; [|done..]. by eexists.
Qed.

Lemma compileItems_first_invalid before expr after err :
  Forall valid before → regexp_Compile expr = inr err →
  compileItems ((Some <$> before) ++ Some expr :: after) = Returns (inr err).
Proof.
  intros Hv Hbad. induction Hv as [|e before [re Hre] _ IH].
  - simpl. by rewrite Hbad.
  - rewrite fmap_cons, <- app_comm_cons. cbn [compileItems].
    by rewrite Hre, IH.
Qed.

Lemma compileItems_first_nil before after :
  Forall valid before →
  compileItems ((Some <$> before) ++ None :: after) = Panics.
Proof.
  intros Hv. induction Hv as [|e before [re Hre] _ IH]; [done|].
  rewrite fmap_cons, <- app_comm_cons. cbn [compileItems].
  by rewrite Hre, IH.
Qed.

Lemma compileItems_cases items :
  match compileItems items with
  | Returns (inl _) => ∃ exprs, items = Some <$> exprs ∧ Forall valid exprs
  | Returns (inr err) =>
      ∃ before expr after,
        items = (Some <$> before) ++ Some expr :: after
        ∧ Forall valid before ∧ regexp_Compile expr = inr err
  | Panics =>
      ∃ before after,
        items = (Some <$> before) ++ None :: after ∧ Forall valid before
  end.
Proof.
  induction items as [|[expr|] items IH]; simpl.
  - by exists [].
  - destruct (regexp_Compile expr) as [re|err] eqn:Hc.
    + assert (valid expr) as Hv by by exists re.
      destruct (compileItems items) as [[res|err]|].
      * destruct IH as (exprs & -> & Hall). exists (expr :: exprs).
        split; [done|]. by constructor.
      * destruct IH as (before & bad & after & -> & Hall & Hbad).
        exists (expr :: before), bad, after. split_and!; try done.
        by constructor.
      * destruct IH as (before & after & -> & Hall).
        exists (expr :: before), after. split; [done|]. by constructor.
    + by exists [], expr, items.
  - by exists [], items.
Qed.

(** C8, as the code has it: for a document that decodes, [parse] returns an
    error, and with it no definitions, exactly when going through the
    include patterns, the exclude patterns and the rules in that order it
    meets a pattern that does not compile before any nil rule; the error is
    the one [regexp.Compile] gave for that pattern, passed on as it is. *)
Theorem parse_invalid_pattern input y err :
  yaml_Unmarshal input = inl y →
  parse input = Returns (None, Some err)
  ↔ ∃ before expr after,
      allItems y = (Some <$> before) ++ Some expr :: after
      ∧ Forall valid before ∧ regexp_Compile expr = inr err.
Proof.
  intros Hy. pose proof (parse_compileItems input y Hy) as Hp. split.
  - intros Hparse. pose proof (compileItems_cases (allItems y)) as Hc.
    destruct (compileItems (allItems y)) as [[res|e]|].
    + destruct Hp as [d Hd]. congruence.
    + rewrite Hp in Hparse. by injection Hparse as ->.
    + congruence.
  - intros (before & expr & after & Hitems & Hv & Hbad).
    by rewrite Hitems, (compileItems_first_invalid _ _ _ err) in Hp.
Qed.

(** ** Single-file mode *)

Lemma foldl_step_lines d filename lines :
  foldl step d (pair filename <$> lines)
  = foldl (λ d line, matchAgainstLine d filename line) d lines.
Proof.
  revert d. induction lines as [|line lines IH]; intros d; simpl; [done|].
  apply IH.
Qed.

Lemma matchAgainstFile_rules d filename opened :
  Forall2
    (λ r r',
       sameButActual r r'
       ∧ (actualFilenames r' = actualFilenames r
          ∨ actualFilenames r' = <[filename := true]> (actualFilenames r)))
    (Rules d) (Rules (matchAgainstFile d filename opened).1).
Proof.
  destruct opened as [f|err]; simpl.
  - rewrite readLoop_trace. simpl.
    rewrite foldl_step_lines, Rules_foldl_matchAgainstLine.
    apply Forall2_fmap_self. intros r.
    destruct (matchRule_lines filename (linesOf (NewReader f)) r) as [Hs Ha].
    split; [done|]. rewrite Ha. destruct (existsb _ _); auto.
  - apply Forall_Forall2_diag, Forall_forall. intros r _. split; [done|]. by left.
Qed.

Lemma exclusive_of_subset r target :
  rule_wf r →
  paths (expectedFilenames r) ⊆ {[target]} →
  paths (actualFilenames r) ⊆ {[target]} →
  (Mismatches r).1 = [] ∨ (Mismatches r).2 = [].
Proof.
  intros [He Ha] Hsube Hsuba.
  destruct (Mismatches r).1 as [|p extra] eqn:H1; [by left|].
  destruct (Mismatches r).2 as [|q missing] eqn:H2; [by right|].
  exfalso.
  assert (p ∈ (Mismatches r).1) as Hp by (rewrite H1; left).
  assert (q ∈ (Mismatches r).2) as Hq by (rewrite H2; left).
  apply elem_of_shouldNotBeThere in Hp as [Hp _].
  apply elem_of_shouldBeThere in Hq as [Hq Hnot].
  apply (allTrue_index _ _ Ha) in Hp. apply (allTrue_index _ _ He) in Hq.
  pose proof Hp as Hpt. pose proof Hq as Hqt.
  apply elem_of_paths, Hsuba, elem_of_singleton in Hpt.
  apply elem_of_paths, Hsube, elem_of_singleton in Hqt.
  congruence.
Qed.

(** C10: in single-file mode the expected and the actual files of every rule
    are within [{target}], so [extra] and [missing] are never both
    non-empty. *)
Theorem single_file_exclusive w config results prog cfg target d' err :
  parse config = Returns (Some results, None) →
  Args w = [prog; cfg; target] →
  scan w results = (true, (d', err)) →
  Forall
    (λ r,
       paths (expectedFilenames r) ⊆ {[target]}
       ∧ paths (actualFilenames r) ⊆ {[target]}
       ∧ ((Mismatches r).1 = [] ∨ (Mismatches r).2 = []))
    (Rules d').
Proof.
  intros Hparse Hargs. unfold scan. rewrite Hargs.
  destruct (shouldCheck results target); [|done].
  destruct (matchAgainstFile _ _ _) as [d1 err1] eqn:Hscan. intros [= <- <-].
  apply parse_Some in Hparse as (_ & Hwf & Hempty).
  assert (defs_wf d1) as Hwf1.
  { change d1 with (d1, err1).1. rewrite <- Hscan.
    by apply matchAgainstFile_wf, adjustExpectedFilenames_wf. }
  pose proof (matchAgainstFile_rules (adjustExpectedFilenames results target)
                target (Open w target)) as Hrules.
  rewrite Hscan in Hrules. simpl in Hrules.
  assert (Forall (λ r, paths (expectedFilenames r) ⊆ {[target]}
                       ∧ paths (actualFilenames r) ⊆ {[target]}) (Rules d1))
    as Hsub.
  { apply Forall_lookup. intros i r2 Hi.
    destruct (Forall2_lookup_r _ _ _ _ _ Hrules Hi)
      as (r1 & Hi1 & (_ & _ & _ & Hx) & Ha2).
    simpl in Hi1. rewrite adjustRules_fmap in Hi1.
    apply list_lookup_fmap_Some in Hi1 as (r0 & -> & Hi0).
    destruct (adjustRule_narrows target r0) as (_ & Hp & Ha).
    rewrite Forall_lookup in Hempty. specialize (Hempty i r0 Hi0).
    simpl in Hempty. rewrite Hx, Hp. split.
    - case_decide; [done | apply empty_subseteq].
    - rewrite Ha, Hempty in Ha2. destruct Ha2 as [-> | ->].
      + rewrite paths_empty. apply empty_subseteq.
      + by rewrite paths_insert, paths_empty, union_empty_r_L. }
  apply Forall_forall. intros r Hr.
  rewrite Forall_forall in Hsub. destruct (Hsub r Hr) as [He Ha].
  split_and!; try done.
  unfold defs_wf in Hwf1. rewrite Forall_forall in Hwf1.
  eapply exclusive_of_subset; eauto.
Qed.

End Properties.

(** * Further properties of the code *)

Section Further.
Context `{GoLibs}.

Implicit Types (m : gmap string bool) (r : rule) (d : defs).

(** ** [parse] on a configuration that compiles *)

Lemma compilePatterns_valid exprs :
  Forall valid exprs →
  ∃ res, compilePatterns exprs = inl res
         ∧ Forall2 (λ expr re, regexp_Compile expr = inl re) exprs res.
Proof.
  induction 1 as [|expr exprs [re Hre] _ (res & Hres & Hall)]; simpl.
  - by exists [].
  - exists (re :: res). rewrite Hre, Hres. split; [done|]. by constructor.
Qed.

Lemma compileRules_valid rules :
  Forall is_Some rules →
  Forall valid (yPattern <$> omap id rules) →
  ∃ compiled, compileRules rules = Returns (inl compiled)
              ∧ Forall2 (λ yr c, c.1 = yr ∧ regexp_Compile (yPattern yr) = inl c.2)
                  (omap id rules) compiled.
Proof.
  induction rules as [|[yr|] rules IH].
  - intros _ _. by exists [].
  - intros [_ Hsome]%Forall_cons. cbn [omap list_omap id].
    rewrite fmap_cons. intros [[re Hre] Hrest]%Forall_cons.
    destruct (IH Hsome Hrest) as (compiled & Hc & Hall).
    exists ((yr, re) :: compiled). cbn [compileRules].
    rewrite Hre, Hc. split; [done|].
    by constructor.
  - intros [[? [=]] _]%Forall_cons.
Qed.

Lemma compileRules_inl rules compiled :
  compileRules rules = Returns (inl compiled) →
  Forall is_Some rules ∧ Forall valid (yPattern <$> omap id rules).
Proof.
  revert compiled. induction rules as [|[yr|] rules IH]; intros compiled.
  - by split.
  - cbn [compileRules omap list_omap id]. rewrite fmap_cons.
    destruct (regexp_Compile (yPattern yr)) as [re|err] eqn:Hre; [|done].
    destruct (compileRules rules) as [[c|e]|]; [|done..]. intros _.
    destruct (IH c eq_refl) as [Hsome Hvalid].
    split; constructor; try done. by exists re.
  - done.
Qed.

Lemma expectedMap_paths m expected :
  paths (expectedMap m expected) = list_to_set expected ∪ paths m.
Proof.
  revert m. induction expected as [|path rest IH]; intros m; simpl.
  - by rewrite union_empty_l_L.
  - rewrite IH, paths_insert. apply set_eq. intros k.
    rewrite !elem_of_union. tauto.
Qed.

(** X1: when the document decodes, none of its rules is nil and every
    pattern compiles, [parse] returns definitions and no error; the patterns
    are compiled one for one and in order, each rule expects exactly the
    paths listed for it (a path listed twice counts once) and has seen
    none. *)
Theorem parse_valid input y :
  yaml_Unmarshal input = inl y →
  Forall is_Some (yRules y) →
  Forall valid (allPatterns y) →
  ∃ d, parse input = Returns (Some d, None)
       ∧ Include d = yInclude y ∧ Exclude d = yExclude y
       ∧ Forall2 (λ expr re, regexp_Compile expr = inl re) (yInclude y) (include d)
       ∧ Forall2 (λ expr re, regexp_Compile expr = inl re) (yExclude y) (exclude d)
       ∧ Forall2
           (λ yr r,
              Pattern r = yPattern yr ∧ Expected r = yExpected yr
              ∧ regexp_Compile (yPattern yr) = inl (pattern r)
              ∧ paths (expectedFilenames r) = list_to_set (yExpected yr)
              ∧ actualFilenames r = ∅)
           (rulesOf y) (Rules d).
Proof.
  intros Hy Hsome. unfold allPatterns, rulesOf. rewrite !Forall_app.
  intros (Hinc & Hexc & Hrules).
  destruct (compilePatterns_valid _ Hinc) as (inc & Hci & Hfi).
  destruct (compilePatterns_valid _ Hexc) as (exc & Hce & Hfe).
  destruct (compileRules_valid _ Hsome Hrules) as (compiled & Hcr & Hfr).
  unfold parse. rewrite Hy, Hci, Hce, Hcr. eexists. split; [done|]. simpl.
  split_and!; try done.
  apply Forall2_fmap_r. eapply Forall2_impl; [exact Hfr|].
  intros yr [yr' re] [Hyr Hre]. simpl in *. subst yr'.
  split_and!; try done.
  by rewrite expectedMap_paths, paths_empty, union_empty_r_L.
Qed.

(** [parse] returns definitions, or it returns an error, or it panics. *)
Lemma parse_shape input :
  (∃ d, parse input = Returns (Some d, None))
  ∨ (∃ err, parse input = Returns (None, Some err))
  ∨ parse input = Panics.
Proof.
  unfold parse. destruct (yaml_Unmarshal input) as [y|e]; [|right; left; by eexists].
  destruct (compilePatterns (yInclude y)) as [inc|e]; [|right; left; by eexists].
  destruct (compilePatterns (yExclude y)) as [exc|e]; [|right; left; by eexists].
  destruct (compileRules (yRules y)) as [[c|e]|].
  - left. by eexists.
  - right. left. by eexists.
  - by right; right.
Qed.

(** [parse] panics exactly on a document that decodes and has a nil rule
    with nothing before it but patterns that compile. *)
Lemma parse_panics_iff input :
  parse input = Panics
  ↔ ∃ y before after,
      yaml_Unmarshal input = inl y
      ∧ allItems y = (Some <$> before) ++ None :: after ∧ Forall valid before.
Proof.
  split.
  - intros Hparse. destruct (yaml_Unmarshal input) as [y|e] eqn:Hy.
    2:{ unfold parse in Hparse. by rewrite Hy in Hparse. }
    pose proof (parse_compileItems input y Hy) as Hp.
    pose proof (compileItems_cases (allItems y)) as Hc.
    destruct (compileItems (allItems y)) as [[res|e]|].
    + destruct Hp as [d Hd]. congruence.
    + congruence.
    + destruct Hc as (before & after & Hitems & Hv). by exists y, before, after.
  - intros (y & before & after & Hy & Hitems & Hv).
    pose proof (parse_compileItems input y Hy) as Hp.
    by rewrite Hitems, compileItems_first_nil in Hp.
Qed.

(** ** The verdict of a run *)

Lemma report_passing mode r : mismatched r = false → report mode r = [].
Proof.
  unfold mismatched, report. destruct (Mismatches r) as [a b]. by intros ->.
Qed.

Lemma report_failing mode r : mismatched r = true → report mode r ≠ [].
Proof.
  unfold mismatched, report. destruct (Mismatches r) as [a b]. intros Hm.
  rewrite Hm. destruct mode; [|done].
  destruct (negb (length a =? 0)); [done|]. simpl in Hm. by rewrite Hm.
Qed.

Lemma mismatched_paths r :
  rule_wf r →
  mismatched r = false
  ↔ paths (actualFilenames r) = paths (expectedFilenames r).
Proof.
  intros [He Ha]. rewrite mismatched_false. split.
  - intros [H1 H2]. apply set_eq. intros p. rewrite !elem_of_paths.
    destruct (index (actualFilenames r) p) eqn:Hap,
             (index (expectedFilenames r) p) eqn:Hep; try done; exfalso.
    + assert (p ∈ (Mismatches r).1) as Hin; [|rewrite H1 in Hin; by inversion Hin].
      apply elem_of_shouldNotBeThere. split; [|done]. by apply allTrue_index.
    + assert (p ∈ (Mismatches r).2) as Hin; [|rewrite H2 in Hin; by inversion Hin].
      apply elem_of_shouldBeThere. split; [|done]. by apply allTrue_index.
  - intros Heq. split.
    + destruct (Mismatches r).1 as [|p l] eqn:H1; [done|]. exfalso.
      assert (p ∈ (Mismatches r).1) as Hin by (rewrite H1; left).
      apply elem_of_shouldNotBeThere in Hin as [Hin Hne].
      apply (allTrue_index _ _ Ha), elem_of_paths in Hin.
      rewrite Heq, elem_of_paths in Hin. congruence.
    + destruct (Mismatches r).2 as [|p l] eqn:H2; [done|]. exfalso.
      assert (p ∈ (Mismatches r).2) as Hin by (rewrite H2; left).
      apply elem_of_shouldBeThere in Hin as [Hin Hne].
      apply (allTrue_index _ _ He), elem_of_paths in Hin.
      rewrite <- Heq, elem_of_paths in Hin. congruence.
Qed.

(** After a scan without error [main] ends with status 0 and the one line
    of success when every rule has seen its pattern in the files it expects
    and in no other, and with status 2 after a report otherwise. *)
Lemma reconcile_cases mode d :
  defs_wf d →
  if decide (Forall (λ r, paths (actualFilenames r) = paths (expectedFilenames r))
               (Rules d))
  then reconcile mode d = Exit 0 [okMessage] []
  else ∃ out, out ≠ [] ∧ reconcile mode d = Exit 2 (out ++ [failedMessage]) [].
Proof.
  intros Hwf. unfold defs_wf in Hwf. unfold reconcile. case_decide as Hall.
  - assert (Forall (λ r, mismatched r = false) (Rules d)) as Hm.
    { rewrite Forall_forall in Hall, Hwf. apply Forall_forall. intros r Hr.
      apply mismatched_paths; auto. }
    clear Hall Hwf. induction Hm as [|r rs Hr _ IH]; [done|].
    simpl. rewrite Hr, (report_passing mode r Hr). simpl.
    destruct (existsb mismatched rs); [done|]. simpl in IH. done.
  - apply not_Forall_Exists in Hall; [|apply _].
    assert (Exists (λ r, mismatched r = true) (Rules d)) as Hm.
    { apply Exists_exists in Hall as (r & Hr & Hne). apply Exists_exists.
      exists r. split; [done|]. rewrite Forall_forall in Hwf.
      apply not_false_is_true. intros Hf. apply Hne.
      by apply mismatched_paths; auto. }
    assert (existsb mismatched (Rules d) = true) as ->.
    { apply existsb_exists. apply Exists_exists in Hm as (r & Hr & Ht).
      exists r. split; [by apply list_elem_of_In|done]. }
    eexists. split; [|done].
    clear Hall Hwf. induction Hm as [r rs Hr|r rs _ IH]; simpl.
    + pose proof (report_failing mode r Hr) as Hne.
      destruct (report mode r); [done|]. done.
    + intros Happ. apply app_eq_nil in Happ as [_ Happ]. by apply IH.
Qed.

Lemma reconcile_status mode d :
  ∃ s out, reconcile mode d = Exit s out [] ∧ (s = 0 ∨ s = 2).
Proof.
  unfold reconcile. destruct (existsb mismatched (Rules d)); eauto.
Qed.

(** X3: [main] panics exactly when it is given one or two arguments, the
    configuration file can be read and decodes, and a rule of it is nil with
    nothing before it but patterns that compile.  In every other case it
    ends with status 0, 1 or 2; it writes to standard error with status 1
    only, and then it has printed nothing unless it printed the usage. *)
Theorem main_exit_status w :
  (main w = Panic
   ↔ (length (Args w) = 2 ∨ length (Args w) = 3)
     ∧ ∃ config y before after,
         ReadFile w (nth 1 (Args w) EmptyString) = inl config
         ∧ yaml_Unmarshal config = inl y
         ∧ allItems y = (Some <$> before) ++ None :: after
         ∧ Forall valid before)
  ∧ (main w = Panic
     ∨ ∃ s out errs,
         main w = Exit s out errs
         ∧ (s = 0 ∨ s = 1 ∨ s = 2)
         ∧ (s ≠ 1 → errs = [])
         ∧ (s = 1 → (out = [] ∧ ∃ err, errs = [error_Error err]) ∨ main w = usage)).
Proof.
  assert (length (Args w) = 2 ∨ length (Args w) = 3
          ↔ negb (length (Args w) =? 2) && negb (length (Args w) =? 3) = false)
    as Hlen.
  { rewrite andb_false_iff, !negb_false_iff, !Nat.eqb_eq. done. }
  unfold main.
  destruct (negb (length (Args w) =? 2) && negb (length (Args w) =? 3)).
  { split.
    - split; [done|]. intros [Hargs _]. by apply Hlen in Hargs.
    - right. exists 1, (match usage with Exit _ o _ => o | Panic => [] end), [].
      split_and!; auto. }
  destruct (ReadFile w _) as [config|err].
  2:{ split.
      - split; [done|]. by intros (_ & config & y & before & after & ? & _).
      - right. exists 1, [], [error_Error err]. split_and!; eauto. done. }
  destruct (parse_shape config) as [[d Hp]|[[err Hp]|Hp]]; rewrite Hp.
  - assert (¬ ∃ y before after,
                yaml_Unmarshal config = inl y
                ∧ allItems y = (Some <$> before) ++ None :: after
                ∧ Forall valid before) as Hno.
    { intros Hex%parse_panics_iff. congruence. }
    destruct (scan w d) as [mode [d' [err|]]].
    + split.
      * split; [done|].
        intros (_ & config' & y & before & after & [= <-] & Hrest).
        exfalso. apply Hno. by exists y, before, after.
      * right. exists 1, [], [error_Error err]. split_and!; eauto. done.
    + destruct (reconcile_status mode d') as (s & out & -> & Hs). split.
      * split; [done|].
        intros (_ & config' & y & before & after & [= <-] & Hrest).
        exfalso. apply Hno. by exists y, before, after.
      * right. exists s, out, []. split_and!; try done.
        -- destruct Hs; auto.
        -- intros ->. by destruct Hs.
  - split.
    + split; [done|].
      intros (_ & config' & y & before & after & [= <-] & Hrest).
      assert (parse config = Panics) as Hpanic.
      { apply parse_panics_iff. by exists y, before, after. }
      congruence.
    + right. exists 1, [], [error_Error err]. split_and!; eauto. done.
  - split; [|by left]. split; [|done]. intros _. split; [by apply Hlen|].
    apply parse_panics_iff in Hp as (y & before & after & Hy & Hrest).
    by exists config, y, before, after.
Qed.

(** ** The lines of a file *)

Lemma noNewline_snoc (s : string) c :
  noNewline s = true → Ascii.eqb c newline = false →
  noNewline (s +:+ String c EmptyString) = true.
Proof.
  intros Hs Hc. induction s as [|c' s IH].
  - simpl. by rewrite Hc.
  - change (noNewline (String c' (s +:+ String c EmptyString)) = true).
    simpl in *. apply andb_true_iff in Hs as [-> Hs]. simpl. by apply IH.
Qed.

Lemma readFrom_pieces cur bytes err :
  noNewline cur = true →
  foldr String.append (pending (readFrom cur bytes err))
        (linesOf (readFrom cur bytes err)) = cur +:+ bytes
  ∧ Forall (λ line, ∃ body, line = body +:+ nl ∧ noNewline body = true)
      (linesOf (readFrom cur bytes err))
  ∧ noNewline (pending (readFrom cur bytes err)) = true.
Proof.
  revert cur. induction bytes as [|c bytes IH]; intros cur Hcur; simpl.
  - by rewrite append_empty_r.
  - destruct (Ascii.eqb c newline) eqn:Hc; simpl.
    + destruct (IH EmptyString eq_refl) as (Hcat & Hlines & Hpend).
      rewrite Hcat. split_and!; [apply append_snoc| |done].
      constructor; [|done]. exists cur. split; [|done].
      by apply Ascii.eqb_eq in Hc as ->.
    + destruct (IH (cur +:+ String c EmptyString)) as (Hcat & Hlines & Hpend).
      { by apply noNewline_snoc. }
      rewrite Hcat. split_and!; [apply append_snoc|done..].
Qed.

(** X4: [matchAgainstFile] on a file that opens cuts its bytes after every
    newline and passes to [matchAgainstLine] each piece that ends in a
    newline, in order and with the newline; the bytes after the last
    newline are not passed.  The result is the error that ends the reads
    unless that is [io.EOF]; the pieces read before a read error have been
    matched all the same. *)
Theorem matchAgainstFile_lines d filename f :
  ∃ lines tail,
    content f = foldr String.append tail lines
    ∧ Forall (λ line, ∃ body, line = body +:+ nl ∧ noNewline body = true) lines
    ∧ noNewline tail = true
    ∧ matchAgainstFile d filename (inl f)
      = (foldl (λ d line, matchAgainstLine d filename line) d lines,
         if decide (readerr f = io_EOF) then None else Some (readerr f)).
Proof.
  exists (linesOf (NewReader f)), (pending (NewReader f)).
  destruct (readFrom_pieces EmptyString (content f) (readerr f) eq_refl)
    as (Hcat & Hlines & Hpend).
  split_and!; try done.
  simpl. rewrite readLoop_trace, foldl_step_lines. f_equal.
  apply endOf_readFrom.
Qed.

(** ** [adjustExpectedFilenames] twice *)

Lemma index_narrowed m target target' :
  index (if index m target then <[target := true]> ∅ else ∅) target'
  = index m target && bool_decide (target' = target).
Proof.
  destruct (index m target); simpl; [|done].
  unfold index. rewrite lookup_insert. case_bool_decide as Ht.
  - subst. by rewrite decide_True.
  - rewrite decide_False by done. by rewrite lookup_empty.
Qed.

(** X5: narrowing to the same file a second time changes nothing; narrowing
    to another file after the first leaves every rule without any expected
    file. *)
Theorem adjustExpectedFilenames_twice d target target' :
  adjustExpectedFilenames (adjustExpectedFilenames d target) target'
  = if decide (target' = target) then adjustExpectedFilenames d target
    else set_Rules d ((λ r, set_expectedFilenames r ∅) <$> Rules d).
Proof.
  unfold adjustExpectedFilenames, set_Rules. simpl.
  rewrite !adjustRules_fmap, <- list_fmap_compose.
  case_decide as Ht; f_equal; apply list_fmap_ext; intros i r _; simpl;
    unfold adjustRule, set_expectedFilenames; simpl; f_equal;
    rewrite index_narrowed.
  - subst. rewrite bool_decide_eq_true_2 by done. rewrite andb_true_r.
    by destruct (index (expectedFilenames r) target).
  - rewrite bool_decide_eq_false_2 by done. by rewrite andb_false_r.
Qed.

(** ** [Mismatches] with one side empty *)

Lemma filter_all {A} (P : A → Prop) `{∀ x, Decision (P x)} (l : list A) :
  (∀ x, P x) → filter P l = l.
Proof.
  intros HP. induction l as [|x l IH]; [done|].
  rewrite filter_cons, decide_True by done. by rewrite IH.
Qed.

(** X6: a rule that has seen its pattern nowhere reports nothing as extra
    and every file it expects as missing; a rule that expects no file
    reports every file it has seen as extra and nothing as missing. *)
Theorem Mismatches_one_side_empty r :
  (actualFilenames r = ∅ →
   Mismatches r = ([], range (expectedFilenames r)))
  ∧ (expectedFilenames r = ∅ →
     Mismatches r = (range (actualFilenames r), [])).
Proof.
  unfold Mismatches. split; intros ->; rewrite !notIn_filter; simpl.
  - unfold range at 1. rewrite map_to_list_empty. simpl. f_equal.
    by apply filter_all.
  - unfold range at 2. rewrite map_to_list_empty. simpl. f_equal.
    by apply filter_all.
Qed.

(** ** The choice of the scan in [main] *)

(** X7: when a third argument names a file that [shouldCheck] rejects,
    [main] does what it does without that argument: it scans the whole tree
    and never opens the file. *)
Theorem main_falls_back w prog cfg target :
  Args w = [prog; cfg; target] →
  (∀ config results,
     ReadFile w cfg = inl config → parse config = Returns (Some results, None) →
     shouldCheck results target = false) →
  main w = main (setArgs w [prog; cfg]).
Proof.
  intros Hargs Hno. unfold main, scan, setArgs. simpl. rewrite Hargs. simpl.
  destruct (ReadFile w cfg) as [config|err] eqn:Hread; [|done].
  destruct (parse_shape config) as [[d Hp]|[[err Hp]|Hp]]; rewrite Hp; [|done..].
  by rewrite (Hno config d).
Qed.

(** ** What a traversal reaches *)

Lemma shouldCheck_filters d path :
  shouldCheck (filters (include d) (exclude d)) path = shouldCheck d path.
Proof. done. Qed.

Lemma summary_ext inc exc run run' (F F' : string → file + error → Prop) (D D' : Prop) :
  (∀ d, run d = run' d) → (∀ path opened, F path opened ↔ F' path opened) →
  (D ↔ D') → summary inc exc run F D → summary inc exc run' F' D'.
Proof.
  intros Hrun HF HD (trace & err & Ha & Hb & Hc & Hd).
  exists trace, err. split_and!.
  - intros d Hi He. rewrite <- Hrun. by apply Ha.
  - intros path line Hin. destruct (Hb path line Hin) as (f & Hf & Hrest).
    exists f. by rewrite <- HF.
  - intros Herr path f line Hf. apply Hc; [done|]. by apply HF.
  - rewrite Hd, HD. split; intros [HnD Hall]; (split; [done|]);
      intros path opened Hf; apply Hall; by apply HF.
Qed.

Lemma summary_nothing inc exc :
  summary inc exc (λ d, (d, None)) (λ _ _, False) False.
Proof.
  exists [], None. split_and!; try done.
  - by intros path line ?%elem_of_nil.
  - split; [|done]. intros _. split; [tauto|done].
Qed.

Lemma summary_seq inc exc run1 run2 (F1 F2 : string → file + error → Prop) (D1 D2 : Prop) :
  summary inc exc run1 F1 D1 → summary inc exc run2 F2 D2 →
  summary inc exc
    (λ d, match run1 d with
          | (d', Some err) => (d', Some err)
          | (d', None) => run2 d'
          end)
    (λ path opened, F1 path opened ∨ F2 path opened) (D1 ∨ D2).
Proof.
  intros (t1 & e1 & Ha1 & Hb1 & Hc1 & Hd1) (t2 & e2 & Ha2 & Hb2 & Hc2 & Hd2).
  destruct e1 as [err1|].
  - exists t1, (Some err1). split_and!.
    + intros d Hi He. by rewrite Ha1.
    + intros path line Hin. destruct (Hb1 path line Hin) as (f & Hf & Hrest).
      exists f. auto.
    + done.
    + split; [done|]. intros [HnD Hall].
      apply Hd1. split; [tauto|]. intros path opened Hf. apply Hall. by left.
  - destruct Hd1 as [Hd1 _]. destruct (Hd1 eq_refl) as [HnD1 Hall1].
    exists (t1 ++ t2), e2. split_and!.
    + intros d Hi He. rewrite Ha1 by done.
      destruct (foldl_step_filters d t1) as [Hi' He'].
      rewrite Ha2, foldl_app by congruence. done.
    + intros path line [Hin|Hin]%elem_of_app.
      * destruct (Hb1 path line Hin) as (f & Hf & Hrest). exists f. auto.
      * destruct (Hb2 path line Hin) as (f & Hf & Hrest). exists f. auto.
    + intros Herr path f line [Hf|Hf] Hcheck Hline; apply elem_of_app.
      * left. by eapply Hc1.
      * right. by eapply Hc2.
    + rewrite Hd2. split; intros [HnD Hall].
      * split; [tauto|]. intros path opened [Hf|Hf]; eauto.
      * split; [tauto|]. intros path opened Hf. apply Hall. by right.
Qed.

Lemma summary_file inc exc path0 opened0 :
  summary inc exc
    (λ d, if shouldCheck d path0 then matchAgainstFile d path0 opened0 else (d, None))
    (λ path opened, path = path0 ∧ opened = opened0) False.
Proof.
  assert (∀ d, include d = inc → exclude d = exc →
               shouldCheck d path0 = shouldCheck (filters inc exc) path0) as Hsame.
  { intros d <- <-. by rewrite shouldCheck_filters. }
  destruct (shouldCheck (filters inc exc) path0) eqn:Hcheck.
  - destruct opened0 as [f|err0].
    + exists (pair path0 <$> linesOf (NewReader f)), (endOf (NewReader f)).
      split_and!.
      * intros d Hi He. rewrite Hsame by done. simpl. apply readLoop_trace.
      * intros path line (l & [= -> ->] & Hl)%list_elem_of_fmap. by exists f.
      * intros _ path f' line [-> [= ->]] _ Hl. apply list_elem_of_fmap. by exists line.
      * unfold NewReader. rewrite endOf_readFrom. split.
        -- case_decide as Heof; [|done]. intros _. split; [tauto|].
           intros path opened [-> ->] _. by exists f.
        -- intros [_ Hall]. destruct (Hall path0 (inl f)) as (f' & [= <-] & Heof);
             [done..|]. by rewrite decide_True.
    + exists [], (Some err0). split_and!.
      * intros d Hi He. by rewrite Hsame.
      * by intros path line ?%elem_of_nil.
      * done.
      * split; [done|]. intros [_ Hall].
        by destruct (Hall path0 (inr err0)) as (f & ? & _).
  - exists [], None. split_and!.
    + intros d Hi He. by rewrite Hsame.
    + by intros path line ?%elem_of_nil.
    + intros _ path f line [-> _] Hc. congruence.
    + split; [|done]. intros _. split; [tauto|].
      intros path opened [-> _] Hc. congruence.
Qed.

Lemma fileAt_entries dirname files path opened :
  fileAt dirname (ReadDirOk files) path opened
  ↔ ∃ e, e ∈ files ∧ entryFile dirname e path opened.
Proof.
  split.
  - inversion 1 as [? ? name o Hin|? ? name sub ? ? Hin Hsub]; subst.
    + by exists (name, IsRegular opened).
    + by exists (name, IsDir sub).
  - intros ([name [sub|o|]] & Hin & He); unfold entryFile in He; simpl in He.
    + by eapply fileAt_below.
    + destruct He as [-> ->]. by apply fileAt_here.
    + done.
Qed.

Lemma dirErrorAt_entries dirname files :
  (∃ path err, dirErrorAt dirname (ReadDirOk files) path err)
  ↔ ∃ e, e ∈ files ∧ entryDirError dirname e.
Proof.
  split.
  - intros (path & err & Hd).
    inversion Hd as [|? ? name sub ? ? Hin Hsub]; subst.
    exists (name, IsDir sub). split; [done|]. unfold entryDirError. simpl. eauto.
  - intros ([name [sub|o|]] & Hin & He); unfold entryDirError in He; simpl in He;
      try done.
    destruct He as (path & err & He). exists path, err. by eapply dirErrorAt_below.
Qed.

Lemma summary_files inc exc dirname files :
  Forall (λ e, summary inc exc (λ d, exploreEntry d dirname e)
                 (entryFile dirname e) (entryDirError dirname e)) files →
  summary inc exc (λ d, exploreFiles d dirname files)
    (λ path opened, ∃ e, e ∈ files ∧ entryFile dirname e path opened)
    (∃ e, e ∈ files ∧ entryDirError dirname e).
Proof.
  induction 1 as [|e files He _ IH].
  - eapply summary_ext; [| | |apply summary_nothing]; simpl; try done.
    + intros path opened. split; [done|]. by intros (e & ?%elem_of_nil & _).
    + split; [done|]. by intros (e & ?%elem_of_nil & _).
  - eapply summary_ext; [| | |exact (summary_seq _ _ _ _ _ _ _ _ He IH)].
    + done.
    + intros path opened. split.
      * intros [Hf|(e' & Hin & Hf)]; [exists e|exists e']; split; auto;
          [left|by right].
      * intros (e' & [->|Hin]%elem_of_cons & Hf); [by left|right; eauto].
    + split.
      * intros [Hf|(e' & Hin & Hf)]; [exists e|exists e']; split; auto;
          [left|by right].
      * intros (e' & [->|Hin]%elem_of_cons & Hf); [by left|right; eauto].
Qed.

Lemma summary_dir t :
  ∀ inc exc dirname,
    summary inc exc (λ d, exploreDir d dirname t) (fileAt dirname t)
      (∃ path err, dirErrorAt dirname t path err).
Proof.
  induction t as [err0|files IH] using dir_ind'; intros inc exc dirname.
  - exists [], (Some err0). split_and!; try done.
    + by intros path line ?%elem_of_nil.
    + split; [done|]. intros [HnD _]. exfalso. apply HnD.
      exists dirname, err0. constructor.
  - eapply summary_ext; [| | |apply (summary_files inc exc dirname files)].
    + intros d. by rewrite exploreDir_files.
    + intros path opened. by rewrite fileAt_entries.
    + by rewrite dirErrorAt_entries.
    + eapply Forall_impl; [exact IH|]. intros [name [sub|o|]] He; simpl in *.
      * apply (He inc exc (filepath_Join dirname name)).
      * apply summary_file.
      * apply summary_nothing.
Qed.

Lemma exploreDir_summary d dirname t :
  ∃ trace,
    exploreDir d dirname t = (foldl step d trace, (exploreDir d dirname t).2)
    ∧ (∀ path line,
         (path, line) ∈ trace →
         ∃ f, fileAt dirname t path (inl f) ∧ shouldCheck d path = true
              ∧ line ∈ linesOf (NewReader f))
    ∧ ((exploreDir d dirname t).2 = None →
       ∀ path f line,
         fileAt dirname t path (inl f) → shouldCheck d path = true →
         line ∈ linesOf (NewReader f) → (path, line) ∈ trace)
    ∧ ((exploreDir d dirname t).2 = None ↔ readable d dirname t).
Proof.
  destruct (summary_dir t (include d) (exclude d) dirname)
    as (trace & err & Ha & Hb & Hc & Hd).
  specialize (Ha d eq_refl eq_refl). rewrite Ha. simpl.
  exists trace. split_and!; try done.
  rewrite Hd. unfold readable. split; intros [HnD Hall]; (split; [|done]).
  - intros path e He. apply HnD. eauto.
  - intros (path & e & He). by apply (HnD path e).
Qed.

(** X8: a traversal ends without error exactly when every directory of the
    tree can be listed and every regular file that [shouldCheck] accepts can
    be opened and read to its end; what is wrong with a file that
    [shouldCheck] rejects does not matter, since it is never opened. *)
Theorem exploreDir_succeeds_iff_readable d dirname t :
  (exploreDir d dirname t).2 = None ↔ readable d dirname t.
Proof. by destruct (exploreDir_summary d dirname t) as (trace & _ & _ & _ & Hd). Qed.

Lemma Rules_foldl_step d trace :
  Rules (foldl step d trace)
  = (λ r, foldl (λ r fl, matchRule fl.1 fl.2 r) r trace) <$> Rules d.
Proof.
  revert d. induction trace as [|fl trace IH]; intros d; simpl.
  - by rewrite list_fmap_id.
  - rewrite IH. simpl. rewrite matchRules_fmap, <- list_fmap_compose. done.
Qed.

Lemma index_insert_true m path path' :
  index (<[path := true]> m) path' = true ↔ path' = path ∨ index m path' = true.
Proof.
  unfold index. rewrite lookup_insert. case_decide as Hp.
  - subst. simpl. split; auto.
  - split; [by right|]. by intros [->|].
Qed.

Lemma foldl_matchRule_index r trace path :
  let r' := foldl (λ r fl, matchRule fl.1 fl.2 r) r trace in
  sameButActual r r'
  ∧ (index (actualFilenames r') path = true
     ↔ index (actualFilenames r) path = true
       ∨ ∃ line, (path, line) ∈ trace ∧ regexp_Match (pattern r) line = true).
Proof.
  revert r. induction trace as [|[p l] trace IH]; intros r; simpl.
  - split; [done|]. split; [by left|]. by intros [|(line & ?%elem_of_nil & _)].
  - destruct (IH (matchRule p l r)) as [Hs Hi].
    destruct (matchRule_same p l r) as (HP & HE & Hp & Hx).
    destruct Hs as (HP' & HE' & Hp' & Hx').
    split; [unfold sameButActual; split_and!; congruence|].
    rewrite Hi, Hp, matchRule_actual. clear Hi.
    destruct (regexp_Match (pattern r) l) eqn:Hm.
    + rewrite index_insert_true. split.
      * intros [[->|Hold]|(line & Hin & Hl)]; [right|by left|right].
        -- exists l. split; [left|done].
        -- exists line. split; [by right|done].
      * intros [Hold|(line & [[= -> ->]|Hin]%elem_of_cons & Hl)]; eauto.
    + split.
      * intros [Hold|(line & Hin & Hl)]; [by left|right].
        exists line. split; [by right|done].
      * intros [Hold|(line & [[= -> ->]|Hin]%elem_of_cons & Hl)];
          [by left|congruence|right; eauto].
Qed.

(** X9: a traversal touches nothing but the actual files of the rules, and
    these only grow.  A path it adds to a rule is that of a regular file of
    the tree that [shouldCheck] accepts and in which a newline-terminated
    line matches the pattern of the rule; when the traversal ends without
    error, every such path has been added. *)
Theorem exploreDir_records d dirname t :
  include (exploreDir d dirname t).1 = include d
  ∧ exclude (exploreDir d dirname t).1 = exclude d
  ∧ Forall2
      (λ r r',
         sameButActual r r'
         ∧ (∀ path, index (actualFilenames r) path = true →
                    index (actualFilenames r') path = true)
         ∧ (∀ path, index (actualFilenames r') path = true →
                    index (actualFilenames r) path = true
                    ∨ found d dirname t r path)
         ∧ ((exploreDir d dirname t).2 = None →
            ∀ path, found d dirname t r path →
                    index (actualFilenames r') path = true))
      (Rules d) (Rules (exploreDir d dirname t).1).
Proof.
  destruct (exploreDir_summary d dirname t) as (trace & Ha & Hb & Hc & _).
  rewrite Ha. simpl. destruct (foldl_step_filters d trace) as [-> ->].
  split_and!; try done.
  rewrite Rules_foldl_step. apply Forall2_fmap_self. intros r.
  split_and!.
  - apply foldl_matchRule_index with (path := EmptyString).
  - intros path Hold. apply foldl_matchRule_index. by left.
  - intros path [Hold|(line & Hin & Hl)]%foldl_matchRule_index; [by left|right].
    destruct (Hb path line Hin) as (f & Hf & Hcheck & Hline).
    by exists f, line.
  - intros Hok path (f & line & Hf & Hcheck & Hline & Hl).
    apply foldl_matchRule_index. right. exists line. split; [|done].
    by eapply Hc.
Qed.

Lemma matchRule_idem filename line r :
  matchRule filename line (matchRule filename line r) = matchRule filename line r.
Proof.
  unfold matchRule. destruct (regexp_Match (pattern r) line) eqn:Hm; simpl;
    rewrite Hm; [|done].
  unfold set_actualFilenames. simpl. f_equal. apply insert_insert_eq.
Qed.

Lemma step_idem d a : step (step d a) a = step d a.
Proof.
  unfold step, matchAgainstLine, set_Rules. simpl. f_equal.
  rewrite !matchRules_fmap, <- list_fmap_compose.
  apply list_fmap_ext. intros i r _. simpl. apply matchRule_idem.
Qed.

Lemma foldl_step_twice d trace :
  foldl step (foldl step d trace) trace = foldl step d trace.
Proof.
  revert d. induction trace as [|a trace IH]; intros d; simpl; [done|].
  rewrite (foldl_step_cons d a trace), step_idem.
  rewrite (foldl_step_cons (foldl step d trace) a trace). by rewrite IH.
Qed.

(** X10: a traversal of the same tree from the state a traversal left gives
    that state again, and the same error if any: seeing a file twice adds
    nothing. *)
Theorem exploreDir_again d dirname t :
  exploreDir (exploreDir d dirname t).1 dirname t = exploreDir d dirname t.
Proof.
  destruct (exploreDir_trace t (include d) (exclude d) dirname)
    as (trace & err & Ht).
  rewrite (Ht d) by done. simpl.
  destruct (foldl_step_filters d trace) as [Hi He].
  rewrite Ht by done. by rewrite foldl_step_twice.
Qed.

Lemma shouldCheck_no_include d path : include d = [] → shouldCheck d path = false.
Proof. unfold shouldCheck. intros ->. simpl. by destruct (anyMatch _ _). Qed.

(** X11: when [shouldCheck] accepts no regular file of the tree, the
    traversal leaves the definitions as they are; so it is, for every tree,
    with definitions that have no include pattern. *)
Theorem exploreDir_nothing_accepted d dirname t :
  ((∀ path opened, fileAt dirname t path opened → shouldCheck d path = false) →
   (exploreDir d dirname t).1 = d)
  ∧ (include d = [] → (exploreDir d dirname t).1 = d).
Proof.
  assert ((∀ path opened, fileAt dirname t path opened → shouldCheck d path = false)
          → (exploreDir d dirname t).1 = d) as Hgen.
  { intros Hno.
    destruct (exploreDir_summary d dirname t) as (trace & Ha & Hb & _).
    rewrite Ha. simpl. destruct trace as [|[path line] trace]; [done|].
    destruct (Hb path line) as (f & Hf & Hcheck & _); [left|].
    rewrite (Hno path (inl f) Hf) in Hcheck. done. }
  split; [done|]. intros Hinc. apply Hgen. intros path opened _.
  by apply shouldCheck_no_include.
Qed.

(** ** The verdict of [main] *)

Lemma Forall_equiv {A} (P Q : A → Prop) (l : list A) :
  (∀ x, x ∈ l → (P x ↔ Q x)) → Forall P l ↔ Forall Q l.
Proof.
  intros Hpq. rewrite !Forall_forall. split; intros Hall x Hx; apply Hpq; auto.
Qed.

(** X2: a run over the whole tree, on a configuration that parses and a tree
    that is readable, ends with status 0 and the one line of success when,
    for every rule, the files it expects are exactly the accepted files in
    which a newline-terminated line matches its pattern; otherwise it ends
    with status 2 after a report that is not empty.  Nothing is written to
    standard error. *)
Theorem main_full_tree_verdict w prog cfg config results :
  Args w = [prog; cfg] →
  ReadFile w cfg = inl config →
  parse config = Returns (Some results, None) →
  readable results "." (cwd w) →
  (Forall (λ r, ∀ path, index (expectedFilenames r) path = true
                        ↔ found results "." (cwd w) r path) (Rules results) →
   main w = Exit 0 [okMessage] [])
  ∧ (¬ Forall (λ r, ∀ path, index (expectedFilenames r) path = true
                            ↔ found results "." (cwd w) r path) (Rules results) →
     ∃ out, out ≠ [] ∧ main w = Exit 2 (out ++ [failedMessage]) []).
Proof.
  intros Hargs Hread Hparse Hreadable.
  unfold main, scan. rewrite Hargs. simpl. rewrite Hread, Hparse.
  destruct (exploreDir_summary results "." (cwd w)) as (trace & Ha & Hb & Hc & Hd).
  apply Hd in Hreadable. specialize (Hc Hreadable).
  pose proof (exploreDir_wf results "." (cwd w)) as Hwf.
  apply parse_Some in Hparse as (_ & Hwf0 & Hempty). specialize (Hwf Hwf0).
  destruct (exploreDir results "." (cwd w)) as [d' e]. simpl in *.
  subst e. injection Ha as ->.
  pose proof (reconcile_cases false (foldl step results trace) Hwf) as Hcases.
  assert (Forall (λ r, paths (actualFilenames r) = paths (expectedFilenames r))
            (Rules (foldl step results trace))
          ↔ Forall (λ r, ∀ path, index (expectedFilenames r) path = true
                                 ↔ found results "." (cwd w) r path)
              (Rules results)) as Hiff.
  { rewrite Rules_foldl_step, Forall_fmap. apply Forall_equiv. intros r Hr.
    rewrite Forall_forall in Hempty. specialize (Hempty r Hr). simpl.
    assert (∀ path,
              index (actualFilenames
                       (foldl (λ r fl, matchRule fl.1 fl.2 r) r trace)) path = true
              ↔ found results "." (cwd w) r path) as Hact.
    { intros path.
      destruct (foldl_matchRule_index r trace path) as [_ ->].
      rewrite Hempty. split.
      - intros [Hold|(line & Hin & Hl)]; [done|].
        destruct (Hb path line Hin) as (f & Hf & Hcheck & Hline).
        by exists f, line.
      - intros (f & line & Hf & Hcheck & Hline & Hl). right.
        exists line. split; [|done]. by eapply Hc. }
    destruct (foldl_matchRule_index r trace EmptyString)
      as [(_ & _ & _ & ->) _].
    split.
    - intros Heq path. rewrite <- Hact, <- !elem_of_paths. by rewrite Heq.
    - intros Hall. apply set_eq. intros path.
      rewrite !elem_of_paths, Hact. by rewrite Hall. }
  case_decide as Hdec; split.
  - done.
  - intros Hn. exfalso. by apply Hn, Hiff.
  - intros Hall. exfalso. by apply Hdec, Hiff.
  - done.
Qed.

Lemma single_rule r (expected seen : bool) target :
  expectedFilenames r = (if expected then <[target := true]> ∅ else ∅) →
  actualFilenames r = (if seen then <[target := true]> ∅ else ∅) →
  report true r = singleFileLine r expected seen
  ∧ (mismatched r = false ↔ singleFileLine r expected seen = []).
Proof.
  intros He Ha. unfold report, mismatched, Mismatches. rewrite He, Ha.
  destruct expected, seen; rewrite ?insert_empty; unfold range;
    rewrite ?map_to_list_singleton, ?map_to_list_empty; simpl;
    unfold index; rewrite ?lookup_singleton_eq, ?lookup_empty; simpl; done.
Qed.

Lemma reconcile_single d (rs : list rule) (h : rule → rule) (line : rule → list string) :
  Rules d = h <$> rs →
  Forall (λ r, report true (h r) = line r
               ∧ (mismatched (h r) = false ↔ line r = [])) rs →
  reconcile true d
  = if decide (flat_map line rs = []) then Exit 0 [okMessage] []
    else Exit 2 (flat_map line rs ++ [failedMessage]) [].
Proof.
  intros Hd Hall. unfold reconcile. rewrite Hd. clear Hd.
  assert (flat_map (report true) (h <$> rs) = flat_map line rs) as ->.
  { induction Hall as [|r rs [Hr _] _ IH]; [done|].
    rewrite fmap_cons. simpl. by rewrite Hr, IH. }
  assert (existsb mismatched (h <$> rs) = negb (bool_decide (flat_map line rs = [])))
    as ->.
  { induction Hall as [|r rs [_ Hr] _ IH]; [done|].
    rewrite fmap_cons. simpl. rewrite IH.
    destruct (mismatched (h r)) eqn:Hm; simpl.
    - destruct (line r) as [|x l] eqn:Hl.
      + destruct Hr as [_ Hr]. by specialize (Hr eq_refl).
      + by rewrite bool_decide_eq_false_2.
    - destruct Hr as [Hr _]. by rewrite (Hr eq_refl). }
  case_decide as Hout.
  - rewrite bool_decide_eq_true_2 by done. simpl. by rewrite Hout.
  - by rewrite bool_decide_eq_false_2.
Qed.

Lemma matchAgainstFile_healthy d filename f :
  readerr f = io_EOF →
  matchAgainstFile d filename (inl f)
  = (foldl (λ d line, matchAgainstLine d filename line) d (linesOf (NewReader f)),
     None).
Proof.
  intros Heof. simpl. rewrite readLoop_trace, foldl_step_lines. f_equal.
  unfold NewReader. rewrite endOf_readFrom. by rewrite decide_True.
Qed.

(** X12: a run on one named file that [shouldCheck] accepts and that reads
    to its end prints, for each rule in order, that the pattern was found
    when a newline-terminated line of the file matches and the file is not
    expected, that it was expected but not found when the file is expected
    and no such line matches, and nothing otherwise; it ends with status 0
    and the line of success when nothing was printed, with status 2 and the
    line of failure otherwise.  The other expected files of the rules play
    no part. *)
Theorem main_single_file_verdict w prog cfg target config results f :
  Args w = [prog; cfg; target] →
  ReadFile w cfg = inl config →
  parse config = Returns (Some results, None) →
  shouldCheck results target = true →
  Open w target = inl f →
  readerr f = io_EOF →
  main w
  = let out :=
      flat_map
        (λ r, singleFileLine r (index (expectedFilenames r) target)
                (existsb (regexp_Match (pattern r)) (linesOf (NewReader f))))
        (Rules results) in
    if decide (out = []) then Exit 0 [okMessage] []
    else Exit 2 (out ++ [failedMessage]) [].
Proof.
  intros Hargs Hread Hparse Hcheck Hopen Heof.
  unfold main, scan. rewrite Hargs.
  cbn -[matchAgainstFile adjustExpectedFilenames reconcile parse shouldCheck].
  rewrite Hread, Hparse, Hcheck, Hopen, matchAgainstFile_healthy by done.
  apply parse_Some in Hparse as (_ & _ & Hempty).
  apply (reconcile_single _ (Rules results)
           (λ r, foldl (λ r line, matchRule target line r)
                   (adjustRule target r) (linesOf (NewReader f)))).
  - rewrite Rules_foldl_matchAgainstLine. simpl.
    rewrite adjustRules_fmap, <- list_fmap_compose. done.
  - eapply Forall_impl; [exact Hempty|]. intros r Hr. simpl in Hr.
    destruct (matchRule_lines target (linesOf (NewReader f)) (adjustRule target r))
      as [(HP & _ & _ & Hx) Hact].
    simpl in *. rewrite Hr in Hact.
    assert (∀ e s, singleFileLine
                     (foldl (λ r line, matchRule target line r)
                        (adjustRule target r) (linesOf (NewReader f))) e s
                   = singleFileLine r e s) as Hline.
    { intros e s. unfold singleFileLine. by rewrite HP. }
    rewrite <- !Hline. apply single_rule with target; [exact Hx|].
    rewrite Hact. by destruct (existsb _ _).
Qed.

(** ** Errors of the configuration *)

Lemma compilePatterns_inl exprs res :
  compilePatterns exprs = inl res → Forall valid exprs.
Proof.
  revert res. induction exprs as [|expr exprs IH]; intros res; simpl; [done|].
  destruct (regexp_Compile expr) as [re|err] eqn:Hc; [|done].
  destruct (compilePatterns exprs) as [res'|err]; [|done].
  intros _. constructor; [by exists re|by eapply IH].
Qed.

(** X13: [parse] returns definitions exactly when the document decodes,
    none of its rules is nil and every include, exclude and rule pattern
    compiles. *)
Theorem parse_succeeds_iff input :
  (∃ d, parse input = Returns (Some d, None))
  ↔ ∃ y, yaml_Unmarshal input = inl y ∧ Forall is_Some (yRules y)
         ∧ Forall valid (allPatterns y).
Proof.
  split.
  - intros [d Hp]. unfold parse in Hp.
    destruct (yaml_Unmarshal input) as [y|e]; [|done]. exists y. split; [done|].
    destruct (compilePatterns (yInclude y)) as [inc|e] eqn:Hi; [|done].
    destruct (compilePatterns (yExclude y)) as [exc|e] eqn:He; [|done].
    destruct (compileRules (yRules y)) as [[c|e]|] eqn:Hr; [|done..].
    apply compileRules_inl in Hr as [Hsome Hrules]. split; [done|].
    unfold allPatterns, rulesOf. rewrite !Forall_app.
    split_and!; [by eapply compilePatterns_inl..|done].
  - intros (y & Hy & Hsome & Hall). unfold allPatterns, rulesOf in Hall.
    rewrite !Forall_app in Hall. destruct Hall as (Hinc & Hexc & Hrules).
    destruct (compilePatterns_valid _ Hinc) as (inc & Hci & _).
    destruct (compilePatterns_valid _ Hexc) as (exc & Hce & _).
    destruct (compileRules_valid _ Hsome Hrules) as (compiled & Hcr & _).
    unfold parse. rewrite Hy, Hci, Hce, Hcr. by eexists.
Qed.

(** X14: with a configuration file that can be read and decodes, and in
    which a pattern that does not compile comes before any nil rule, [main]
    ends with status 1, prints nothing and writes to standard error the
    message of the error of [regexp.Compile] on the first such pattern,
    whatever the tree and the named file are: no directory is listed and no
    file is opened. *)
Theorem main_invalid_pattern w config y before expr after err :
  length (Args w) = 2 ∨ length (Args w) = 3 →
  ReadFile w (nth 1 (Args w) EmptyString) = inl config →
  yaml_Unmarshal config = inl y →
  allItems y = (Some <$> before) ++ Some expr :: after →
  Forall valid before →
  regexp_Compile expr = inr err →
  ∀ open tree,
    main (Os (Args w) (ReadFile w) open tree) = Exit 1 [] [error_Error err].
Proof.
  intros Hargs Hread Hy Hitems Hv Hbad open tree.
  pose proof (parse_compileItems config y Hy) as Hp.
  rewrite Hitems, (compileItems_first_invalid _ _ _ err) in Hp by done.
  unfold main. simpl. rewrite Hread, Hp.
  by destruct Hargs as [-> | ->].
Qed.

(** ** The calls of [matchAgainstLine] *)

(** X15: two calls of [matchAgainstLine] give the same definitions in either
    order, and a call made twice gives what it gives once. *)
Theorem matchAgainstLine_commutes d filename line filename' line' :
  matchAgainstLine (matchAgainstLine d filename line) filename' line'
  = matchAgainstLine (matchAgainstLine d filename' line') filename line
  ∧ matchAgainstLine (matchAgainstLine d filename line) filename line
    = matchAgainstLine d filename line.
Proof.
  split.
  - apply (step_comm d (filename, line) (filename', line')).
  - apply (step_idem d (filename, line)).
Qed.

(** ** The error of a traversal *)

Lemma shouldCheck_same d d' path :
  include d' = include d → exclude d' = exclude d →
  shouldCheck d' path = shouldCheck d path.
Proof. unfold shouldCheck. by intros -> ->. Qed.

Lemma exploreEntry_filters d dirname e :
  include (exploreEntry d dirname e).1 = include d
  ∧ exclude (exploreEntry d dirname e).1 = exclude d.
Proof.
  destruct (exploreEntry_trace dirname e (include d) (exclude d))
    as (trace & err & Ht).
  rewrite Ht by done. apply foldl_step_filters.
Qed.

Lemma culprit_same d d' dirname t err :
  include d' = include d → exclude d' = exclude d →
  culprit d' dirname t err → culprit d dirname t err.
Proof.
  intros Hi He [Hd|[(path & Hf & Hc)|(path & f & Hf & Hc & Hr)]].
  - by left.
  - right. left. exists path. by rewrite <- (shouldCheck_same d d').
  - right. right. exists path, f. by rewrite <- (shouldCheck_same d d').
Qed.

Lemma culprit_entry d dirname files e err :
  e ∈ files →
  match e.2 with
  | IsDir sub => culprit d (filepath_Join dirname e.1) sub err
  | IsRegular opened =>
      shouldCheck d (filepath_Join dirname e.1) = true
      ∧ (opened = inr err ∨ ∃ f, opened = inl f ∧ readerr f = err ∧ err ≠ io_EOF)
  | IsOther => False
  end →
  culprit d dirname (ReadDirOk files) err.
Proof.
  destruct e as [name [sub|opened|]]; simpl; intros Hin; [| |done].
  - intros [(path & Hd)|[(path & Hf & Hc)|(path & f & Hf & Hc & Hr)]].
    + left. exists path. by eapply dirErrorAt_below.
    + right. left. exists path. split; [|done]. by eapply fileAt_below.
    + right. right. exists path, f. split; [|done]. by eapply fileAt_below.
  - intros [Hc [->|(f & -> & Hr)]].
    + right. left. eexists. split; [|exact Hc]. by apply fileAt_here.
    + right. right. eexists _, f. split; [|done]. by apply fileAt_here.
Qed.

Lemma matchAgainstFile_error d filename opened err :
  (matchAgainstFile d filename opened).2 = Some err →
  opened = inr err ∨ ∃ f, opened = inl f ∧ readerr f = err ∧ err ≠ io_EOF.
Proof.
  destruct opened as [f|err0]; simpl.
  - rewrite readLoop_trace. simpl. unfold NewReader. rewrite endOf_readFrom.
    case_decide as Heof; [done|]. intros [= <-]. right. by exists f.
  - intros [= ->]. by left.
Qed.

Lemma exploreFiles_culprit d dirname files all err :
  (∀ e, e ∈ files → e ∈ all) →
  Forall (λ e, match e.2 with
               | IsDir sub =>
                   ∀ d dirname err,
                     (exploreDir d dirname sub).2 = Some err →
                     culprit d dirname sub err
               | _ => True
               end) files →
  (exploreFiles d dirname files).2 = Some err →
  culprit d dirname (ReadDirOk all) err.
Proof.
  intros Hsub Hall. revert d Hsub.
  induction Hall as [|e files He _ IH]; intros d Hsub; simpl; [done|].
  destruct (exploreEntry d dirname e) as [d' [err'|]] eqn:Hentry; simpl.
  - intros [= ->]. apply culprit_entry with e; [apply Hsub; left|].
    destruct e as [name [sub|opened|]]; unfold exploreEntry in Hentry;
      simpl in *.
    + apply He. by rewrite Hentry.
    + destruct (shouldCheck d (filepath_Join dirname name)); [|done].
      split; [done|]. apply (matchAgainstFile_error d (filepath_Join dirname name)).
      by rewrite Hentry.
    + done.
  - intros Herr. pose proof (exploreEntry_filters d dirname e) as [Hi He'].
    rewrite Hentry in Hi, He'. simpl in Hi, He'.
    apply (culprit_same d d'); [done..|].
    apply IH; [|done]. intros e' Hin. apply Hsub. by right.
Qed.

(** X16: the error a traversal returns is the error of an operation of the
    tree: of listing one of its directories, of opening one of the files
    [shouldCheck] accepts, or of reading such a file. *)
Theorem exploreDir_error_is_real d dirname t err :
  (exploreDir d dirname t).2 = Some err → culprit d dirname t err.
Proof.
  revert d dirname err.
  induction t as [err0|files IH] using dir_ind'; intros d dirname err.
  - simpl. intros [= ->]. left. exists dirname. constructor.
  - rewrite exploreDir_files. by apply exploreFiles_culprit.
Qed.

End Further.

(** * The properties on a concrete run *)

Import Sample.

Lemma parse_docTodo : parse docTodo = Returns (Some todoDefs, None).
Proof. vm_compute. reflexivity. Qed.

Lemma scannedRule_wf : rule_wf scannedRule.
Proof.
  split; simpl; repeat apply allTrue_insert; apply allTrue_empty.
Qed.

(** The scenarios of the specification. *)
Example full_tree_scan :
  Mismatches <$> Rules (exploreDir todoDefs "." tree).1
  = [(["new.go"; "pkg/a.go"], [])].
Proof. vm_compute. reflexivity. Qed.

Example only_legacy :
  main (fullTree (ReadDirOk [legacy_go]))
  = Exit 0 ["ok" +:+ String "009" EmptyString
              +:+ "lid on all the things, nothing to see here." +:+ nl] [].
Proof. vm_compute. reflexivity. Qed.

Example stale_exception :
  Mismatches <$> Rules (exploreDir todoDefs "." (ReadDirOk [b_go])).1
  = [([], ["legacy.go"])].
Proof. vm_compute. reflexivity. Qed.

Example narrowing_b :
  range ∘ expectedFilenames <$> Rules (adjustExpectedFilenames twoFiles "b.go")
  = [["b.go"]].
Proof. vm_compute. reflexivity. Qed.

Example narrowing_c :
  range ∘ expectedFilenames <$> Rules (adjustExpectedFilenames twoFiles "c.go")
  = [[]].
Proof. vm_compute. reflexivity. Qed.

(** C1: the code does not do what the claim says.  The pattern [TODO]
    matches the only line of a file [new.go] made of the four bytes [TODO];
    the scan of that file ends without an error and without having recorded
    the file, and the run in single-file mode reports that all is in order.
    With a newline after the same line the file is recorded and the run
    fails. *)
Theorem unterminated_last_line_skipped :
  regexp_Match (GoLibs := libs) "TODO" "TODO" = true
  ∧ matchAgainstFile todoDefs "new.go" (inl (File "TODO" EOF)) = (todoDefs, None)
  ∧ actualFilenames
      <$> Rules (matchAgainstFile todoDefs "new.go" (inl (File "TODO" EOF))).1
    = [∅]
  ∧ actualFilenames
      <$> Rules (matchAgainstFile todoDefs "new.go"
                   (inl (File ("TODO" +:+ nl) EOF))).1
    = [{["new.go" := true]}]
  ∧ main (singleFile "TODO")
    = Exit 0 ["ok" +:+ String "009" EmptyString
                +:+ "lid on all the things, nothing to see here." +:+ nl] []
  ∧ main (singleFile ("TODO" +:+ nl))
    = Exit 2 ["Lidded pattern 'TODO' found" +:+ nl;
              nl +:+ "lid test failed. sorry." +:+ nl] [].
Proof. split_and!; vm_compute; reflexivity. Qed.

Lemma Mismatches_set_difference_witness :
  rule_wf scannedRule
  ∧ (list_to_set (Mismatches scannedRule).1 : gset string)
    = paths (actualFilenames scannedRule) ∖ paths (expectedFilenames scannedRule).
Proof.
  split; [exact scannedRule_wf|].
  exact (proj1 (Mismatches_set_difference scannedRule scannedRule_wf)).
Defined.

Lemma Mismatches_disjoint_witness :
  rule_wf scannedRule
  ∧ (list_to_set (Mismatches scannedRule).1 : gset string)
    ## list_to_set (Mismatches scannedRule).2.
Proof.
  split; [exact scannedRule_wf|].
  exact (proj2 (Mismatches_disjoint scannedRule scannedRule_wf)).
Defined.

Lemma shouldCheck_precedence_witness :
  shouldCheck todoDefs "vendor/lib.go" = false
  ∧ shouldCheck todoDefs "new.go" = true
  ∧ shouldCheck todoDefs "README" = false.
Proof.
  split_and!.
  - apply (proj1 (shouldCheck_precedence todoDefs "vendor/lib.go")).
    apply Exists_cons_hd. reflexivity.
  - apply (proj1 (proj2 (shouldCheck_precedence todoDefs "new.go"))).
    + repeat constructor.
    + apply Exists_cons_hd. reflexivity.
  - apply (proj2 (proj2 (shouldCheck_precedence todoDefs "README"))).
    repeat constructor.
Defined.

Lemma tree_shuffled : dir_perm tree shuffled.
Proof.
  apply dir_perm_files.
  apply files_perm_trans
    with [("pkg", IsDir (ReadDirOk [b_go; a_go])); legacy_go; new_go; vendor].
  - apply files_perm_trans
      with [("pkg", IsDir (ReadDirOk [a_go; b_go])); legacy_go; new_go; vendor].
    + apply files_perm_Permutation.
      change [legacy_go; new_go; ("pkg", IsDir (ReadDirOk [a_go; b_go])); vendor]
        with ([legacy_go; new_go]
              ++ ("pkg", IsDir (ReadDirOk [a_go; b_go])) :: [vendor]).
      symmetry.
      apply (Permutation_middle [legacy_go; new_go] [vendor]
               ("pkg", IsDir (ReadDirOk [a_go; b_go]))).
    + apply files_perm_sub; [|apply files_perm_refl].
      apply dir_perm_files, files_perm_swap.
  - apply files_perm_skip, files_perm_Permutation.
    apply (Permutation_cons_append [new_go; vendor] legacy_go).
Qed.

Lemma traversal_order_independent_witness :
  dir_perm tree shuffled
  ∧ Mismatches <$> Rules (exploreDir todoDefs "." tree).1
    = Mismatches <$> Rules (exploreDir todoDefs "." shuffled).1.
Proof.
  split; [exact tree_shuffled|].
  apply (proj2 (traversal_order_independent todoDefs "." tree shuffled tree_shuffled)).
  vm_compute. reflexivity.
Defined.

(** C8 as the claim has it does not hold: the error [parse] returns for an
    invalid pattern is the same whether the pattern is the first include
    pattern or the pattern of the first rule, so that nothing read from the
    error can tell where the pattern is. *)
Lemma parse_error_tells_no_position : ¬ errorLocatesPattern (H := libs).
Proof.
  intros [locate Hlocate].
  destruct (Hlocate docBadInclude cfgBadInclude (InInclude 0) "(")
    as (e1 & Hp1 & Hl1).
  { reflexivity. }
  { reflexivity. }
  { by eexists. }
  { intros [[|i]|[|i]|[|[|i]]] expr'; simpl; try done.
    intros [= <-] _. by eexists. }
  destruct (Hlocate docBadRule cfgBadRule (InRules 0) "(")
    as (e2 & Hp2 & Hl2).
  { reflexivity. }
  { reflexivity. }
  { by eexists. }
  { intros [[|[|i]]|[|i]|[|i]] expr'; simpl; try done.
    intros [= <-] _. by eexists. }
  vm_compute in Hp1, Hp2. congruence.
Qed.

Lemma parse_invalid_pattern_witness :
  yaml_Unmarshal docBadRule = inl cfgBadRule
  ∧ parse docBadRule = Returns (None, Some unclosed).
Proof.
  split; [reflexivity|].
  apply (proj2 (parse_invalid_pattern docBadRule cfgBadRule unclosed eq_refl)).
  exists ["go"], "(", []. split_and!; [reflexivity| |reflexivity].
  constructor; [|constructor]. by eexists.
Defined.

Lemma io_error_aborts_witness :
  exploreDir todoDefs "." broken
  = ((exploreFiles todoDefs "." [legacy_go]).1, Some denied)
  ∧ main (fullTree broken) = Exit 1 [] ["open sub: permission denied"].
Proof.
  destruct (io_error_aborts (H := libs)) as (_ & _ & _ & Hloop & Hmain).
  split.
  - apply (Hloop todoDefs "." [legacy_go] sub [new_go]
             (exploreFiles todoDefs "." [legacy_go]).1).
    + vm_compute. reflexivity.
    + vm_compute. reflexivity.
  - apply (Hmain (fullTree broken) docTodo todoDefs false
             (exploreFiles todoDefs "." [legacy_go]).1 denied).
    + left. reflexivity.
    + reflexivity.
    + exact parse_docTodo.
    + vm_compute. reflexivity.
Defined.

Lemma single_file_exclusive_witness :
  Forall
    (λ r,
       paths (expectedFilenames r) ⊆ {["new.go"]}
       ∧ paths (actualFilenames r) ⊆ {["new.go"]}
       ∧ ((Mismatches r).1 = [] ∨ (Mismatches r).2 = []))
    (Rules (scan (singleFile ("TODO" +:+ nl)) todoDefs).2.1).
Proof.
  apply (single_file_exclusive (singleFile ("TODO" +:+ nl)) docTodo todoDefs
           "lidder" "lidder.yaml" "new.go" _ None).
  - exact parse_docTodo.
  - reflexivity.
  - vm_compute. reflexivity.
Defined.

(** * The further properties on a concrete run *)

Lemma cfgTodo_valid : Forall (valid (H := libs)) (allPatterns cfgTodo).
Proof. repeat constructor; by eexists. Qed.

Lemma yaml_docTodo : yaml_Unmarshal docTodo = inl cfgTodo.
Proof. reflexivity. Qed.

Lemma cfgTodo_no_nil : Forall is_Some (yRules cfgTodo).
Proof. repeat constructor. by eexists. Qed.

Lemma parse_valid_witness :
  ∃ d, parse docTodo = Returns (Some d, None) ∧ Include d = ["go"].
Proof.
  destruct (parse_valid docTodo cfgTodo yaml_docTodo cfgTodo_no_nil cfgTodo_valid)
    as (d & Hp & Hi & _).
  exists d. by split.
Defined.

Lemma onlyLegacy_readable : readable todoDefs "." onlyLegacy.
Proof.
  destruct (exploreDir_summary todoDefs "." onlyLegacy) as (_ & _ & _ & _ & Hd).
  apply Hd. vm_compute. reflexivity.
Qed.

Lemma onlyLegacy_found path :
  index (expectedFilenames todoRule) path = true
  ↔ found todoDefs "." onlyLegacy todoRule path.
Proof.
  split.
  - intros Hi. assert (path = "legacy.go") as ->.
    { destruct (decide (path = "legacy.go")) as [->|Hne]; [done|].
      unfold index in Hi. simpl in Hi.
      by rewrite lookup_singleton_ne in Hi. }
    eexists _, ("// TODO: remove" +:+ nl).
    split_and!.
    + apply (fileAt_here "." [legacy_go] "legacy.go"). left.
    + reflexivity.
    + vm_compute. left.
    + reflexivity.
  - intros (f & line & Hf & _).
    inversion Hf as [? ? name o Hin|? ? name sub ? ? Hin Hsub]; subst.
    + apply list_elem_of_singleton in Hin. injection Hin as -> _. reflexivity.
    + apply list_elem_of_singleton in Hin. discriminate Hin.
Qed.

Lemma main_full_tree_verdict_witness :
  main (fullTree onlyLegacy) = Exit 0 [okMessage] [].
Proof.
  apply (proj1 (main_full_tree_verdict (fullTree onlyLegacy) "lidder" "lidder.yaml"
                  docTodo todoDefs eq_refl eq_refl parse_docTodo
                  onlyLegacy_readable)).
  constructor; [|constructor]. exact onlyLegacy_found.
Defined.

Lemma yaml_docNullRule : yaml_Unmarshal docNullRule = inl cfgNullRule.
Proof. reflexivity. Qed.

Lemma main_exit_status_witness :
  main nullConfig = Panic
  ∧ ∃ s out errs,
      main (fullTree broken) = Exit s out errs ∧ (s = 0 ∨ s = 1 ∨ s = 2).
Proof.
  split.
  - apply (proj1 (main_exit_status nullConfig)). split; [by left|].
    exists docNullRule, cfgNullRule, ["go"], [Some "("].
    split_and!; [reflexivity|exact yaml_docNullRule|reflexivity|].
    constructor; [|constructor]. by eexists.
  - destruct (proj2 (main_exit_status (fullTree broken)))
      as [Hpanic|(s & out & errs & Hm & Hs & _)].
    + vm_compute in Hpanic. discriminate Hpanic.
    + by exists s, out, errs.
Defined.

Lemma Mismatches_one_side_empty_witness :
  Mismatches todoRule = ([], ["legacy.go"]).
Proof.
  exact (proj1 (Mismatches_one_side_empty todoRule) eq_refl).
Defined.

Lemma excludedFile_rejected config results :
  ReadFile excludedFile "lidder.yaml" = inl config →
  parse config = Returns (Some results, None) →
  shouldCheck results "vendor/lib.go" = false.
Proof.
  intros [= <-]. rewrite parse_docTodo. by intros [= <-].
Qed.

Lemma main_falls_back_witness :
  main excludedFile = main (setArgs excludedFile ["lidder"; "lidder.yaml"]).
Proof.
  exact (main_falls_back excludedFile "lidder" "lidder.yaml" "vendor/lib.go"
           eq_refl excludedFile_rejected).
Defined.

Lemma exploreDir_succeeds_iff_readable_witness :
  readable todoDefs "." tree.
Proof.
  apply (proj1 (exploreDir_succeeds_iff_readable todoDefs "." tree)).
  vm_compute. reflexivity.
Defined.

Lemma exploreDir_records_witness :
  Forall2
    (λ r r', ∀ path, found todoDefs "." tree r path →
                     index (actualFilenames r') path = true)
    (Rules todoDefs) (Rules (exploreDir todoDefs "." tree).1).
Proof.
  destruct (exploreDir_records todoDefs "." tree) as (_ & _ & Hall).
  eapply Forall2_impl; [exact Hall|].
  intros r r' (_ & _ & _ & Hfound). apply Hfound.
  vm_compute. reflexivity.
Defined.

Lemma onlyVendor_rejected path opened :
  fileAt "." onlyVendor path opened → shouldCheck todoDefs path = false.
Proof.
  inversion 1 as [? ? name o Hin|? ? name sub ? ? Hin Hsub]; subst.
  - apply list_elem_of_singleton in Hin. discriminate Hin.
  - apply list_elem_of_singleton in Hin. injection Hin as -> ->.
    inversion Hsub as [? ? name' o' Hin'|? ? name' sub' ? ? Hin' Hsub']; subst.
    + apply list_elem_of_singleton in Hin'. injection Hin' as -> _. reflexivity.
    + apply list_elem_of_singleton in Hin'. discriminate Hin'.
Qed.

Lemma exploreDir_nothing_accepted_witness :
  (exploreDir todoDefs "." onlyVendor).1 = todoDefs.
Proof.
  exact (proj1 (exploreDir_nothing_accepted todoDefs "." onlyVendor)
           onlyVendor_rejected).
Defined.

Lemma main_single_file_verdict_witness :
  main (singleFile ("TODO" +:+ nl))
  = Exit 2 ["Lidded pattern 'TODO' found" +:+ nl; failedMessage] [].
Proof.
  rewrite (main_single_file_verdict (singleFile ("TODO" +:+ nl))
             "lidder" "lidder.yaml" "new.go" docTodo todoDefs
             todoLine eq_refl eq_refl parse_docTodo
             eq_refl eq_refl eq_refl).
  vm_compute. reflexivity.
Defined.

Lemma yaml_docBadRule : yaml_Unmarshal docBadRule = inl cfgBadRule.
Proof. reflexivity. Qed.

Lemma main_invalid_pattern_witness :
  main badConfig = Exit 1 [] ["error parsing regexp: missing closing ): `(`"].
Proof.
  apply (main_invalid_pattern badConfig docBadRule cfgBadRule ["go"] "(" []
           unclosed).
  - by left.
  - reflexivity.
  - exact yaml_docBadRule.
  - reflexivity.
  - constructor; [|constructor]. by eexists.
  - reflexivity.
Defined.

Lemma exploreDir_error_is_real_witness : culprit todoDefs "." broken denied.
Proof.
  apply (exploreDir_error_is_real todoDefs "." broken denied).
  vm_compute. reflexivity.
Defined.

Lemma parse_succeeds_iff_witness : ∃ d, parse docTodo = Returns (Some d, None).
Proof.
  apply (proj2 (parse_succeeds_iff docTodo)).
  exists cfgTodo.
  split_and!; [exact yaml_docTodo | exact cfgTodo_no_nil | exact cfgTodo_valid].
Defined.
